(** * dx-cli-tools: argument router and console presenter

    A shallow embedding of the router [src/parser.js], of its variant
    [src/unnamed/part_000], and of the console helper
    [src/unnamed/part_001], followed by the properties of the
    specification proved about them.

    Modelling conventions.
    - A JavaScript string is a [string] where the code compares strings,
      concatenates them, or looks at the first character (the ASCII
      ['-']).  Where the code takes lengths and positions (the callback of
      the version handler), a string is the list of its UTF-16 code units.
    - A JavaScript object used as a string-keyed map is an association
      list in insertion order ([Obj]): [Object.keys] enumerates the string
      keys in the order in which they were first written, and writing an
      existing key keeps its position.  The keys of a parsed-arguments
      object and of the registry are flag tokens, which start with ['-'],
      and the reserved key ["unknowns"]: none is an array index, which
      JavaScript lists first, and none is a name of [Object.prototype].
      The keys of the usage table are canonical names, which are arbitrary
      strings: for that object the order of array indices ([own_set]) and
      the two names of the prototype that matter to the code, the method
      [hasOwnProperty] that it calls and the accessor [__proto__], are
      modelled ([usage_step]).
    - The parsed-arguments objects live in a store ([heap]) and are passed
      by reference ([loc]), because [processParsedArguments] mutates and
      returns its argument.
    - Effects are explicit: a computation maps the process state to an
      [Outcome] (normal return, thrown error, or process exit) and the
      state reached.  Console output and handler invocations are recorded
      in the [trace].
    - A handler is a [Job]: segments that the event loop resumes one at a
      time.  In the monad, [await] on a job is the run of its segments to
      the end with nothing else in between ([settle]); the dispatch loop of
      [run] is also given one step at a time ([step]), with other callbacks
      of the process running while [run] is suspended.
    - What lies outside the repository is a parameter: the handlers of the
      embedding tool, the shell behind [exec], the body of the built-in
      version handler, and [String.prototype.toUpperCase]. *)

From Stdlib Require Import String Ascii List Bool Arith ZArith Lia.
From stdpp Require Import base list strings.
Import ListNotations.

Local Open Scope string_scope.
Local Open Scope list_scope.

(** ** JavaScript objects as insertion-ordered maps *)

Definition Obj (V : Type) : Type := list (string * V).

Section Objects.
Context {V : Type}.

(** [o[k]] *)
Fixpoint obj_get (k : string) (o : Obj V) : option V :=
  match o with
  | [] => None
  | (k', v) :: o' => if String.eqb k' k then Some v else obj_get k o'
  end.

(** [o[k] = v]: an existing key keeps its place, a new key goes last. *)
Fixpoint obj_set (k : string) (v : V) (o : Obj V) : Obj V :=
  match o with
  | [] => [(k, v)]
  | (k', v') :: o' =>
      if String.eqb k' k then (k, v) :: o' else (k', v') :: obj_set k v o'
  end.

(** [delete o[k]] *)
Fixpoint obj_delete (k : string) (o : Obj V) : Obj V :=
  match o with
  | [] => []
  | (k', v) :: o' =>
      if String.eqb k' k then obj_delete k o' else (k', v) :: obj_delete k o'
  end.

(** [Object.keys(o)] *)
Definition obj_keys (o : Obj V) : list string := map fst o.

(** [o.hasOwnProperty(k)] *)
Definition hasOwnProperty (o : Obj V) (k : string) : bool :=
  match obj_get k o with Some _ => true | None => false end.
End Objects.

(** The number a string of decimal digits denotes; [None] when a
    character is no digit. *)
Fixpoint digits_value (s : string) (acc : N) : option N :=
  match s with
  | EmptyString => Some acc
  | String c s' =>
      let n := N_of_ascii c in
      if ((48 <=? n) && (n <=? 57))%N
      then digits_value s' (10 * acc + (n - 48))%N
      else None
  end.

(** A property key that is a canonical array index: the decimal form,
    without a leading zero, of an integer below 2^32 - 1. *)
Definition array_index (k : string) : option N :=
  match k with
  | EmptyString => None
  | String c rest =>
      if Ascii.eqb c "0" && negb (String.eqb rest "") then None
      else
        match digits_value k 0 with
        | Some n => if (n <? 4294967295)%N then Some n else None
        | None => None
        end
  end.

Section OwnProperties.
Context {V : Type}.

(** The place of the new key [k], the array index [n], among the own keys
    as [Object.keys] lists them: array indices come first, in ascending
    order. *)
Fixpoint place_index (n : N) (k : string) (v : V) (o : Obj V) : Obj V :=
  match o with
  | [] => [(k, v)]
  | (k', v') :: o' =>
      match array_index k' with
      | Some n' =>
          if (n' <? n)%N then (k', v') :: place_index n k v o'
          else (k, v) :: (k', v') :: o'
      | None => (k, v) :: (k', v') :: o'
      end
  end.

(** [o[k] = v] for any key [k] that names no accessor of the prototype:
    an existing own key keeps its place; a new key is listed among the
    array indices when it is one, and after all other keys otherwise. *)
Definition own_set (k : string) (v : V) (o : Obj V) : Obj V :=
  if hasOwnProperty o k then obj_set k v o
  else
    match array_index k with
    | Some n => place_index n k v o
    | None => o ++ [(k, v)]
    end.
End OwnProperties.

(** [xs.includes(x)] on an array of strings. *)
Definition includes (xs : list string) (x : string) : bool :=
  existsb (String.eqb x) xs.

(** [s.charAt(0)]: the first character as a string, [""] on the empty
    string. *)
Definition charAt0 (s : string) : string :=
  match s with
  | EmptyString => ""
  | String c _ => String c ""
  end.

(** [s.repeat(n)] *)
Fixpoint str_repeat (s : string) (n : nat) : string :=
  match n with
  | O => ""
  | S n' => s +:+ str_repeat s n'
  end.

(** [toUpperCase] on the ASCII letters, used to instantiate the host's
    function in examples. *)
Definition ascii_toUpperCase_char (c : ascii) : ascii :=
  let n := nat_of_ascii c in
  if Nat.leb 97 n && Nat.leb n 122 then ascii_of_nat (n - 32) else c.

Fixpoint ascii_toUpperCase (s : string) : string :=
  match s with
  | EmptyString => EmptyString
  | String c s' => String (ascii_toUpperCase_char c) (ascii_toUpperCase s')
  end.

(** Concatenation of a list of strings, left to right. *)
Definition str_concat (l : list string) : string :=
  fold_right String.append "" l.

(** ** Console presenter, pure part ([src/unnamed/part_001]) *)

(** The escape character ["\x1b"]. *)
Definition ESC : string := String "027"%char "".

(** [commandLineColors] *)
Module commandLineColors.
Definition reset : string := ESC +:+ "[0m".
Definition bright : string := ESC +:+ "[1m".
Definition dim : string := ESC +:+ "[2m".
Definition underscore : string := ESC +:+ "[4m".
Definition blink : string := ESC +:+ "[5m".
Definition reverse : string := ESC +:+ "[7m".
Definition hidden : string := ESC +:+ "[8m".
Definition foregroundBlack : string := ESC +:+ "[30m".
Definition foregroundRed : string := ESC +:+ "[31m".
Definition foregroundGreen : string := ESC +:+ "[32m".
Definition foregroundYellow : string := ESC +:+ "[33m".
Definition foregroundBlue : string := ESC +:+ "[34m".
Definition foregroundMagenta : string := ESC +:+ "[35m".
Definition foregroundCyan : string := ESC +:+ "[36m".
Definition foregroundWhite : string := ESC +:+ "[37m".
Definition backgroundBlack : string := ESC +:+ "[40m".
Definition backgroundRed : string := ESC +:+ "[41m".
Definition backgroundGreen : string := ESC +:+ "[42m".
Definition backgroundYellow : string := ESC +:+ "[43m".
Definition backgroundBlue : string := ESC +:+ "[44m".
Definition backgroundMagenta : string := ESC +:+ "[45m".
Definition backgroundCyan : string := ESC +:+ "[46m".
Definition backgroundWhite : string := ESC +:+ "[47m".
End commandLineColors.

(** [commandLineFormats] *)
Module commandLineFormats.
Definition heading : string := "heading".
Definition subHeading : string := "subHeading".
Definition default : string := "default".
Definition primary : string := "primary".
Definition secondary : string := "secondary".
Definition success : string := "success".
Definition danger : string := "danger".
Definition warning : string := "warning".
Definition info : string := "info".
Definition light : string := "light".
Definition dark : string := "dark".
Definition terminal : string := "terminal".
End commandLineFormats.

(** One turn of the [for ... of] loop of [getCommandLineFormat]: the
    [switch] on [format], with no [default:] branch. *)
Definition format_switch (finalFormat format : string) : string :=
  if String.eqb format commandLineFormats.heading then
    finalFormat +:+ commandLineColors.bright
  else if String.eqb format commandLineFormats.subHeading then
    finalFormat +:+ commandLineColors.dim
  else if String.eqb format commandLineFormats.default then
    finalFormat +:+ commandLineColors.reset
  else if String.eqb format commandLineFormats.primary then
    finalFormat +:+ commandLineColors.foregroundBlue
  else if String.eqb format commandLineFormats.secondary then
    finalFormat +:+ commandLineColors.foregroundCyan
  else if String.eqb format commandLineFormats.success then
    finalFormat +:+ commandLineColors.foregroundGreen
  else if String.eqb format commandLineFormats.danger then
    finalFormat +:+ commandLineColors.foregroundRed
  else if String.eqb format commandLineFormats.warning then
    finalFormat +:+ commandLineColors.foregroundYellow
  else if String.eqb format commandLineFormats.info then
    finalFormat +:+ commandLineColors.foregroundMagenta
  else if String.eqb format commandLineFormats.light then
    finalFormat +:+ commandLineColors.foregroundWhite
  else if String.eqb format commandLineFormats.dark then
    finalFormat +:+ commandLineColors.foregroundBlack
  else if String.eqb format commandLineFormats.terminal then
    finalFormat +:+ (commandLineColors.foregroundWhite
                     +:+ commandLineColors.backgroundBlack)
  else finalFormat.

(** [getCommandLineFormat(formats)] *)
Definition getCommandLineFormat (formats : list string) : string :=
  fold_left format_switch formats commandLineColors.reset.

(** The specification's reading of the fold: a table from each semantic
    format name to "the ANSI code associated with" it ("terminal maps to a
    foreground+background pair"), looked up once per name.  It is compared
    with [format_switch] below. *)
Definition semanticCodes : Obj string :=
  [ ("heading", commandLineColors.bright);
    ("subHeading", commandLineColors.dim);
    ("default", commandLineColors.reset);
    ("primary", commandLineColors.foregroundBlue);
    ("secondary", commandLineColors.foregroundCyan);
    ("success", commandLineColors.foregroundGreen);
    ("danger", commandLineColors.foregroundRed);
    ("warning", commandLineColors.foregroundYellow);
    ("info", commandLineColors.foregroundMagenta);
    ("light", commandLineColors.foregroundWhite);
    ("dark", commandLineColors.foregroundBlack);
    ("terminal", commandLineColors.foregroundWhite
                 +:+ commandLineColors.backgroundBlack) ].

(** What one name contributes: its code when recognized, nothing
    otherwise. *)
Definition contribution (format : string) : string :=
  match obj_get format semanticCodes with
  | Some code => code
  | None => ""
  end.

(** ** Values exchanged with the console and the host *)

(** A thrown JavaScript error: its constructor name and its message. *)
Inductive JsError : Type :=
  | JsErr (ctor : string) (message : string).

(** How a computation ends: it returns, it throws, or it ends the process
    ([process.exit]). *)
Inductive Outcome (A : Type) : Type :=
  | Returned (a : A)
  | Thrown (e : JsError)
  | Exited (code : Z).
Arguments Returned {A} a.
Arguments Thrown {A} e.
Arguments Exited {A} code.

(** A row of the usage table built by [outputSupportedUsage]. *)
Record UsageRow : Type := mkUsageRow {
  Flags : list string;
  Options : list string;
  Description : string }.

(** A call of [console.log(fmt, ...args)] or of [console.table(rows)]. *)
Inductive ConsoleEvent : Type :=
  | ConsoleLog (fmt : string) (args : list string)
  | ConsoleTable (rows : Obj UsageRow).

(** The observable trace: console calls, and (as instrumentation of [run])
    the moment a flag handler is invoked and the moment the awaited result
    of that handler is fulfilled. *)
Inductive Event : Type :=
  | Console (c : ConsoleEvent)
  | Invoke (argName : string) (args : list string)
  | Fulfilled (argName : string).

(** How the promise of [util.promisify(exec)(command)] settles. *)
Inductive ExecSettled : Type :=
  | ExecResolved (stdout stderr : string)
  | ExecRejected (e : JsError).

(** The [error] field of the object returned by [executeCommand]: the
    captured standard error, or the caught failure object. *)
Inductive ErrorField : Type :=
  | ErrStderr (stderr : string)
  | ErrFailure (e : JsError).

Record ExecResult : Type := mkExecResult {
  output : string;
  error : ErrorField }.

(** A reference to a parsed-arguments object in the store: its index. *)
Abbreviation loc := nat (only parsing).

(** The top-level bindings of each variant of the router module, with the
    parameter of [run]: the identifiers an assignment inside [run] can
    resolve to.  The modules are ES modules (they use [import]), hence
    strict code: an assignment to an identifier that resolves to no binding
    throws a ReferenceError instead of creating a global. *)
Definition scope_parser_js : list string :=
  [ "exec"; "readFileSync"; "pathToFileURL"; "cliToolName";
    "parseInputArguments"; "processParsedArguments"; "outputSupportedUsage";
    "handleError"; "help"; "version"; "supportedArguments"; "run";
    "runParams" ].

Definition scope_part_000 : list string :=
  [ "exec"; "cliToolName";
    "parseInputArguments"; "processParsedArguments"; "outputSupportedUsage";
    "handleError"; "help"; "version"; "supportedArguments"; "run";
    "runParams" ].

Section Program.

Set Default Proof Using "Type".

(** The part of the world the embedding tool's handlers and the shell
    act on. *)
Context {Host : Type}.

(** [String.prototype.toUpperCase], a function of the host. *)
Variable toUpperCase : string -> string.

(** The shell: how [util.promisify(exec)(command)] settles, and what it
    does to the host. *)
Variable execPromise : string -> Host -> ExecSettled * Host.

(** What a call of a handler written outside this module has set in
    motion.  The handler runs until it returns or, when it is an async
    function, until its first [await]; from then on the event loop resumes
    it, one segment at a time, until the promise it returned settles.
    [Segment effect next], resumed in the host [h], makes the console
    calls and leaves the host [effect h], and goes on as [next h].
    [Settled result] has nothing left to run: the awaited result is
    fulfilled (a function that is not async has returned), or rejected (a
    function that is not async has thrown), or [process.exit] was called.
    A job settles after finitely many segments; a handler whose promise
    never settles is not described.  A handler acts on the host and on
    the console only: it does not call [run] again. *)
Inductive Job : Type :=
  | Settled (result : Outcome unit)
  | Segment (effect : Host -> list ConsoleEvent * Host) (next : Host -> Job).

(** A handler: the job a call with positional arguments starts. *)
Definition HostCode : Type := list string -> Job.

(** The body of the built-in [version.f], which reads the file system and
    spawns [npm]; it is given the value of [cliToolName].  The callback it
    registers on the output of the child process runs after [f] has
    returned and is no part of the awaited result: it is one of the other
    callbacks of the process ([step_other]), and the text it prints is
    given by [version_on_data]. *)
Variable version_f : string -> HostCode.

(** The [f] of a flag definition. *)
Inductive HandlerFn : Type :=
  | HelpFn
  | VersionFn
  | CallerFn (code : HostCode).

(** [supportedArgument] *)
Record FlagDef : Type := mkFlagDef {
  name : string;
  description : string;
  allowedOptions : option (list string);
  f : HandlerFn }.

(** [runParams] *)
Record RunParams : Type := mkRunParams {
  param_cliToolName : option string;
  param_supportedArguments : option (Obj FlagDef) }.

(** The state of the process: the two module variables of the router,
    the store of parsed-arguments objects, [process.argv],
    [process.stdout.columns] (undefined when standard output is not a
    terminal), the trace and the host. *)
Record State : Type := mkState {
  cliToolName : string;
  supportedArguments : Obj FlagDef;
  heap : list (Obj (list string));
  argv : list string;
  columns : option nat;
  trace : list Event;
  host : Host }.

Definition set_cliToolName (v : string) (st : State) : State :=
  mkState v (supportedArguments st) (heap st) (argv st) (columns st)
          (trace st) (host st).
Definition set_supportedArguments (v : Obj FlagDef) (st : State) : State :=
  mkState (cliToolName st) v (heap st) (argv st) (columns st)
          (trace st) (host st).
Definition set_heap (v : list (Obj (list string))) (st : State) : State :=
  mkState (cliToolName st) (supportedArguments st) v (argv st) (columns st)
          (trace st) (host st).
Definition set_trace (v : list Event) (st : State) : State :=
  mkState (cliToolName st) (supportedArguments st) (heap st) (argv st)
          (columns st) v (host st).
Definition set_host (v : Host) (st : State) : State :=
  mkState (cliToolName st) (supportedArguments st) (heap st) (argv st)
          (columns st) (trace st) v.

(** *** The effect monad *)

Definition M (A : Type) : Type := State -> Outcome A * State.

Definition ret {A} (a : A) : M A := fun st => (Returned a, st).

Definition bind {A B} (m : M A) (k : A -> M B) : M B :=
  fun st =>
    match m st with
    | (Returned a, st') => k a st'
    | (Thrown e, st') => (Thrown e, st')
    | (Exited c, st') => (Exited c, st')
    end.

Notation "x <- c1 ;; c2" := (bind c1 (fun x => c2))
  (at level 100, c1 at next level, right associativity).
Notation "c1 ;;; c2" := (bind c1 (fun _ => c2))
  (at level 100, right associativity).

Definition gets {A} (proj : State -> A) : M A := fun st => (Returned (proj st), st).
Definition modify (upd : State -> State) : M unit := fun st => (Returned tt, upd st).

(** [throw e] *)
Definition throw {A} (e : JsError) : M A := fun st => (Thrown e, st).

(** [try { body } catch (error) { handler }] *)
Definition try_catch {A} (body : M A) (handler : JsError -> M A) : M A :=
  fun st =>
    match body st with
    | (Thrown e, st') => handler e st'
    | r => r
    end.

(** [process.exit(code)] *)
Definition process_exit {A} (code : Z) : M A := fun st => (Exited code, st).

Definition emit (evs : list Event) : M unit :=
  modify (fun st => set_trace (trace st ++ evs) st).

(** [console.log(fmt, ...args)] and [console.table(rows)] *)
Definition console_log (fmt : string) (args : list string) : M unit :=
  emit [Console (ConsoleLog fmt args)].
Definition console_table (rows : Obj UsageRow) : M unit :=
  emit [Console (ConsoleTable rows)].

(** [xs.forEach(body)] and [for (const x of xs) body], in order; a throw
    or an exit of the body ends the loop. *)
Fixpoint forEach {A} (xs : list A) (body : A -> M unit) : M unit :=
  match xs with
  | [] => ret tt
  | x :: xs' => body x ;;; forEach xs' body
  end.

(** An assignment [x = v] to the identifier [x] in strict code. *)
Definition assign (scope : list string) (x : string) (write : State -> State)
  : M unit :=
  if includes scope x then modify write
  else throw (JsErr "ReferenceError" (x +:+ " is not defined")).

(** *** The store *)

(** An object literal: a fresh object. *)
Definition new_object (o : Obj (list string)) : M loc :=
  fun st => (Returned (length (heap st)), set_heap (heap st ++ [o]) st).

(** Reading through a reference.  Every reference the program holds is
    valid; a number that is no reference is treated like [undefined], on
    which property access throws. *)
Definition read_object (r : loc) : M (Obj (list string)) :=
  fun st =>
    match heap st !! r with
    | Some o => (Returned o, st)
    | None => (Thrown (JsErr "TypeError" "Cannot read properties of undefined"), st)
    end.

Definition write_object (r : loc) (o : Obj (list string)) : M unit :=
  modify (fun st => set_heap (<[r := o]> (heap st)) st).

(** [r[k] = v] *)
Definition set_prop (r : loc) (k : string) (v : list string) : M unit :=
  o <- read_object r ;; write_object r (obj_set k v o).

(** [r[k].push(x)] *)
Definition push_prop (r : loc) (k : string) (x : string) : M unit :=
  o <- read_object r ;;
  match obj_get k o with
  | Some vs => write_object r (obj_set k (vs ++ [x]) o)
  | None => throw (JsErr "TypeError" "Cannot read properties of undefined")
  end.

(** [delete r[k]] *)
Definition delete_prop (r : loc) (k : string) : M unit :=
  o <- read_object r ;; write_object r (obj_delete k o).

(** [Object.keys(r)] *)
Definition object_keys (r : loc) : M (list string) :=
  o <- read_object r ;; ret (obj_keys o).

(** *** The argument router ([src/parser.js]) *)

(** [handleError(message)] *)
Definition handleError {A} (message : option string) : M A :=
  let message := default "No message provided" message in
  toolName <- gets cliToolName ;;
  console_log ("ERROR: Something went wrong. Run '" +:+ toolName
               +:+ " -h' for supported usage") [] ;;;
  throw (JsErr "Error" message).

(** The callback of [process.argv.forEach] in [parseInputArguments],
    run over the arguments [args]; [currentArgName] is the variable the
    callback closes over. *)
Fixpoint scan_argv (parsedArgs : loc) (currentArgName : string)
         (args : list string) : M unit :=
  match args with
  | [] => ret tt
  | arg :: rest =>
      if String.eqb (charAt0 arg) "-" then
        set_prop parsedArgs arg [] ;;;
        scan_argv parsedArgs arg rest
      else
        push_prop parsedArgs currentArgName arg ;;;
        scan_argv parsedArgs currentArgName rest
  end.

(** [parseInputArguments()].  [process.argv] is an array in every Node
    process and a list here, so the guard [!Array.isArray(process.argv)]
    is never taken. *)
Definition parseInputArguments : M loc :=
  parsedArgs <- new_object [("unknowns", [])] ;;
  args <- gets argv ;;
  scan_argv parsedArgs "unknowns" args ;;;
  ret parsedArgs.

(** [processParsedArguments(parsedArgs = {})]; [None] is a call without
    argument. *)
Definition processParsedArguments (parsedArgs : option loc) : M loc :=
  processedArgs <- match parsedArgs with
                   | Some r => ret r
                   | None => new_object []
                   end ;;
  delete_prop processedArgs "unknowns" ;;;
  keys <- object_keys processedArgs ;;
  forEach keys (fun argName =>
    registry <- gets supportedArguments ;;
    if negb (includes (obj_keys registry) argName) then
      handleError (Some ("Invalid argument: " +:+ argName))
    else ret tt) ;;;
  ret processedArgs.

(** The callback of [Object.keys(supportedArguments).map] in
    [outputSupportedUsage], acting on the own properties of [usage].
    [usage] is an object literal, so its prototype is [Object.prototype]:
    - [usage.hasOwnProperty] is the function of the prototype until a row
      is stored under the name "hasOwnProperty"; from then on it is that
      row, and calling it throws;
    - the assignment [usage["__proto__"] = row] runs the setter of the
      prototype, which replaces the prototype of [usage] by the row and
      creates no own property (the row has no property "hasOwnProperty"
      of its own, so the method is still found behind it);
    - every other name of the prototype is a writable data property, and
      assigning to it creates an own property as for any other key. *)
Definition usage_step (registry : Obj FlagDef) (usage : Obj UsageRow)
           (argumentName : string) : JsError + Obj UsageRow :=
  match obj_get argumentName registry with
  | None => inl (JsErr "TypeError" "Cannot read properties of undefined")
  | Some def =>
      let argName := name def in
      if hasOwnProperty usage "hasOwnProperty" then
        inl (JsErr "TypeError" "usage.hasOwnProperty is not a function")
      else if negb (hasOwnProperty usage argName) then
        if String.eqb argName "__proto__" then inr usage
        else
          inr (own_set argName
                 (mkUsageRow [argumentName]
                             (default [] (allowedOptions def))
                             (description def))
                 usage)
      else
        match obj_get argName usage with
        | Some row =>
            inr (obj_set argName
                   (mkUsageRow (Flags row ++ [argumentName]) (Options row)
                               (Description row))
                   usage)
        | None => inl (JsErr "TypeError" "Cannot read properties of undefined")
        end
  end.

(** The loop over the keys of the registry; a throw of the callback ends
    it. *)
Fixpoint usage_loop (registry : Obj FlagDef) (keys : list string)
         (usage : Obj UsageRow) : JsError + Obj UsageRow :=
  match keys with
  | [] => inr usage
  | argumentName :: rest =>
      match usage_step registry usage argumentName with
      | inr usage' => usage_loop registry rest usage'
      | inl e => inl e
      end
  end.

(** The own properties of [usage] at the end of the loop, as
    [console.table] lists them, or the error the loop has thrown. *)
Definition usage_table (registry : Obj FlagDef) : JsError + Obj UsageRow :=
  usage_loop registry (obj_keys registry) [].

(** [outputSupportedUsage()] *)
Definition outputSupportedUsage : M unit :=
  registry <- gets supportedArguments ;;
  match usage_table registry with
  | inl e => throw e
  | inr usage =>
      toolName <- gets cliToolName ;;
      console_log (toolName +:+ " CLI usage below: ") [] ;;;
      console_table usage
  end.

(** The built-in definitions.  The description of [version] is a
    template literal evaluated when the module is loaded, when
    [cliToolName] is ["my-cli"]. *)
Definition help : FlagDef :=
  mkFlagDef "help" "Prints the currently supported usage of the CLI"
            None HelpFn.

Definition version : FlagDef :=
  mkFlagDef "version"
            ("Prints the currently installed version of the " +:+ "my-cli"
             +:+ " CLI")
            None VersionFn.

(** The initial value of [supportedArguments]. *)
Definition builtinArguments : Obj FlagDef :=
  [ ("-h", help); ("--help", help); ("-v", version); ("--version", version) ].

(** One segment of a job, run in the state [st]. *)
Definition run_segment (effect : Host -> list ConsoleEvent * Host) (st : State)
  : State :=
  set_host (snd (effect (host st)))
           (set_trace (trace st ++ map Console (fst (effect (host st)))) st).

(** [await] on a job while nothing else runs in the process: its
    segments one after the other, then its result. *)
Fixpoint settle (job : Job) : M unit :=
  match job with
  | Settled result => fun st => (result, st)
  | Segment effect next =>
      fun st => settle (next (host st)) (run_segment effect st)
  end.

(** Calling code written outside the module and awaiting its result. *)
Definition run_host (code : HostCode) (args : list string) : M unit :=
  settle (code args).

(** [fn.call(this, ...args)] for the [f] of a flag definition. *)
Definition call_handler (fn : HandlerFn) (args : list string) : M unit :=
  match fn with
  | HelpFn => outputSupportedUsage
  | VersionFn => toolName <- gets cliToolName ;; run_host (version_f toolName) args
  | CallerFn code => run_host code args
  end.

(** One turn of the dispatch loop of [run]:
    [await supportedArguments[argName].f.call(this, ...processedArgs[argName])]. *)
Definition dispatch (processedArgs : loc) (argName : string) : M unit :=
  registry <- gets supportedArguments ;;
  match obj_get argName registry with
  | None => throw (JsErr "TypeError" "Cannot read properties of undefined")
  | Some def =>
      o <- read_object processedArgs ;;
      match obj_get argName o with
      | None => throw (JsErr "TypeError" "undefined is not iterable")
      | Some values =>
          emit [Invoke argName values] ;;;
          call_handler (f def) values ;;;
          emit [Fulfilled argName]
      end
  end.

(** The body that both variants of [run] share, from the merge of the
    caller's registry on. *)
Definition run_from_merge (runParams : RunParams) : M unit :=
  let supplied := default [] (param_supportedArguments runParams) in
  forEach (obj_keys supplied) (fun argName =>
    match obj_get argName supplied with
    | Some def =>
        modify (fun st =>
          set_supportedArguments (obj_set argName def (supportedArguments st)) st)
    | None => ret tt
    end) ;;;
  parsedArgs <- parseInputArguments ;;
  processedArgs <- processParsedArguments (Some parsedArgs) ;;
  keys <- object_keys processedArgs ;;
  (if Nat.eqb (length keys) 0 then
     toolName <- gets cliToolName ;;
     console_log ("No input flags provided. Run '" +:+ toolName
                  +:+ " -h' for supported usage.") [] ;;;
     process_exit 1
   else ret tt) ;;;
  keys <- object_keys processedArgs ;;
  forEach keys (dispatch processedArgs).

(** [run(runParams = {})] of [src/parser.js]; [None] is a call without
    argument. *)
Definition run (runParams : option RunParams) : M unit :=
  let runParams := default (mkRunParams None None) runParams in
  assign scope_parser_js "cliToolName"
         (set_cliToolName (default "my-cli" (param_cliToolName runParams))) ;;;
  run_from_merge runParams.

(** [run(runParams = {})] of the variant [src/unnamed/part_000], which
    has one more statement: an assignment to [versionNumber], which the
    module does not declare. *)
Definition run_part_000 (runParams : option RunParams) : M unit :=
  let runParams := default (mkRunParams None None) runParams in
  assign scope_part_000 "cliToolName"
         (set_cliToolName (default "my-cli" (param_cliToolName runParams))) ;;;
  assign scope_part_000 "versionNumber" (fun st => st) ;;;
  run_from_merge runParams.

(** *** The console presenter, effectful part ([src/unnamed/part_001]) *)

(** [executeCommand(command)] *)
Definition executeCommand (command : string) : M ExecResult :=
  try_catch
    (settled <- (fun st =>
                   match execPromise command (host st) with
                   | (ExecResolved stdout stderr, host') =>
                       (Returned (stdout, stderr), set_host host' st)
                   | (ExecRejected e, host') => (Thrown e, set_host host' st)
                   end) ;;
     ret (mkExecResult (fst settled) (ErrStderr (snd settled))))
    (fun error => ret (mkExecResult "" (ErrFailure error))).

(** [outputFormattedLog(message, colorReference, ...logArgs)] *)
Definition outputFormattedLog (message colorReference : string)
           (logArgs : list string) : M unit :=
  console_log (colorReference +:+ "%s" +:+ commandLineColors.reset)
              (message :: logArgs).

(** ["-".repeat(process.stdout.columns)]: [repeat] converts its argument
    to an integer, and [undefined] converts to 0. *)
Definition lineText_of (cols : option nat) : string :=
  str_repeat "-" (default 0 cols).

(** [printFormattedMessage(message = "", messageType = "default",
    messageColor = "dark", ...logArgs)]; [None] is an argument left
    out. *)
Definition printFormattedMessage (message messageType messageColor : option string)
           (logArgs : list string) : M unit :=
  let message := default "" message in
  let messageType := default commandLineFormats.default messageType in
  let messageColor := default commandLineFormats.dark messageColor in
  cols <- gets columns ;;
  let lineText := lineText_of cols in
  if String.eqb messageType commandLineFormats.heading then
    outputFormattedLog lineText
      (getCommandLineFormat [messageType; messageColor]) logArgs ;;;
    outputFormattedLog (toUpperCase message)
      (getCommandLineFormat [messageType; messageColor]) logArgs ;;;
    outputFormattedLog lineText
      (getCommandLineFormat [messageType; messageColor]) logArgs
  else if String.eqb messageType commandLineFormats.subHeading then
    outputFormattedLog message
      (getCommandLineFormat [messageType; messageColor]) logArgs ;;;
    outputFormattedLog lineText
      (getCommandLineFormat [messageType; messageColor]) logArgs
  else if String.eqb messageType commandLineFormats.default then
    outputFormattedLog message
      (getCommandLineFormat [messageType; messageColor]) logArgs
  else if String.eqb messageType commandLineFormats.terminal then
    outputFormattedLog (": " +:+ message +:+ " ")
      (getCommandLineFormat [messageType; messageColor]) logArgs
  else
    outputFormattedLog message
      (getCommandLineFormat [messageType; messageColor]) logArgs.

(** [printHeadingMessage(message = "")] *)
Definition printHeadingMessage (message : option string) : M unit :=
  printFormattedMessage (Some (default "" message))
    (Some commandLineFormats.heading) (Some commandLineFormats.primary) [].

(** *** Vocabulary of the statements *)

(** A flag token: [arg.charAt(0) === "-"]. *)
Definition isFlag (arg : string) : bool := String.eqb (charAt0 arg) "-".

(** What [scan_argv] does to the object and to [currentArgName], read
    off its two branches without the store.  The current bucket always
    exists during the scan ([scan_argv_fold]); were it missing, [scan_argv]
    would throw, and this function leaves the object as it is. *)
Definition bucket_step (acc : Obj (list string) * string) (arg : string)
  : Obj (list string) * string :=
  let '(parsedArgs, currentArgName) := acc in
  if isFlag arg then (obj_set arg [] parsedArgs, arg)
  else
    match obj_get currentArgName parsedArgs with
    | Some vs => (obj_set currentArgName (vs ++ [arg]) parsedArgs, currentArgName)
    | None => (parsedArgs, currentArgName)
    end.

(** The object [parseInputArguments] builds from the tokens [args]. *)
Definition buckets (args : list string) : Obj (list string) :=
  fst (fold_left bucket_step args ([("unknowns", [])], "unknowns")).

(** The value of [currentArgName] after the scan of [args]. *)
Definition current_bucket (args : list string) : string :=
  snd (fold_left bucket_step args ([("unknowns", [])], "unknowns")).

(** The scan as the specification words it: a flag token is registered
    as an empty bucket only "if not already present". *)
Definition spec_bucket_step (acc : Obj (list string) * string) (arg : string)
  : Obj (list string) * string :=
  let '(parsedArgs, currentArgName) := acc in
  if isFlag arg then
    ((if hasOwnProperty parsedArgs arg then parsedArgs
      else obj_set arg [] parsedArgs), arg)
  else
    match obj_get currentArgName parsedArgs with
    | Some vs => (obj_set currentArgName (vs ++ [arg]) parsedArgs, currentArgName)
    | None => (parsedArgs, currentArgName)
    end.

Definition spec_buckets (args : list string) : Obj (list string) :=
  fst (fold_left spec_bucket_step args ([("unknowns", [])], "unknowns")).

(** The tokens up to the first flag token. *)
Fixpoint leading (args : list string) : list string :=
  match args with
  | [] => []
  | arg :: rest => if isFlag arg then [] else arg :: leading rest
  end.

(** The tokens between the last occurrence of [k] and the next flag
    token; [None] when [k] does not occur. *)
Fixpoint last_run (k : string) (args : list string) : option (list string) :=
  match args with
  | [] => None
  | arg :: rest =>
      match last_run k rest with
      | Some vs => Some vs
      | None => if String.eqb arg k then Some (leading rest) else None
      end
  end.

(** The tokens an object holds, bucket after bucket: the values of the
    reserved bucket, and each flag followed by its values. *)
Definition tokens_of (o : Obj (list string)) : list string :=
  concat (map (fun kv => if String.eqb (fst kv) "unknowns" then snd kv
                         else fst kv :: snd kv) o).

(** The keys of [o] the registry does not have, in the order of [o]. *)
Definition unrecognized (registry : Obj FlagDef) (keys : list string)
  : list string :=
  List.filter (fun k => negb (includes (obj_keys registry) k)) keys.

(** The definition under the flag token [k] has the canonical name [n]. *)
Definition has_name (registry : Obj FlagDef) (n k : string) : bool :=
  match obj_get k registry with
  | Some def => String.eqb (name def) n
  | None => false
  end.

(** The flag tokens of the registry whose definition has the canonical
    name [n], in registry order. *)
Definition tokens_named (registry : Obj FlagDef) (n : string) : list string :=
  List.filter (has_name registry n) (obj_keys registry).

(** The row the specification describes for the canonical name [n]: all
    its tokens, and the options and description of the definition under
    the first of them. *)
Definition spec_row (registry : Obj FlagDef) (n : string) : option UsageRow :=
  match tokens_named registry n with
  | [] => None
  | k :: _ =>
      match obj_get k registry with
      | Some def =>
          Some (mkUsageRow (tokens_named registry n)
                           (default [] (allowedOptions def))
                           (description def))
      | None => None
      end
  end.

(** The registry after [run] has merged the caller's entries into it. *)
Definition merged (supplied registry : Obj FlagDef) : Obj FlagDef :=
  fold_left (fun reg argName =>
               match obj_get argName supplied with
               | Some def => obj_set argName def reg
               | None => reg
               end)
            (obj_keys supplied) registry.

Definition is_console (ev : Event) : Prop :=
  match ev with Console _ => True | _ => False end.

(** What a job does from the host [h] when nothing else runs: the
    console calls of its segments, its result, and the host it leaves. *)
Fixpoint job_result (job : Job) (h : Host)
  : list ConsoleEvent * Outcome unit * Host :=
  match job with
  | Settled result => ([], result, h)
  | Segment effect next =>
      let '(printed, result, h') := job_result (next h) (snd (effect h)) in
      (fst (effect h) ++ printed, result, h')
  end.

(** What the handler [fn] does when it is called with [values] and
    awaited, in terms of its own code: for a handler of the caller, the
    result of the job that its code starts on these values; for the
    built-in help, the two console calls of [outputSupportedUsage] for the
    tool name and the registry at that moment, or its error. *)
Definition handler_effect (toolName : string) (registry : Obj FlagDef)
           (fn : HandlerFn) (values : list string) (h : Host)
  : list ConsoleEvent * Outcome unit * Host :=
  match fn with
  | HelpFn =>
      match usage_table registry with
      | inr table =>
          ([ConsoleLog (toolName +:+ " CLI usage below: ") []; ConsoleTable table],
           Returned tt, h)
      | inl e => ([], Thrown e, h)
      end
  | VersionFn => job_result (version_f toolName values) h
  | CallerFn code => job_result (code values) h
  end.

(** Sequential dispatch of [entries] from the host [h]: the handler of
    each entry is called with the values of that entry, in the host the
    handler before it has left; the first handler whose result is not
    fulfilled ends the dispatch with that result, and the handlers of the
    entries after it are not called.  The events are, for each entry in
    turn, the invocation, the console calls of the handler, and the
    fulfilment. *)
Fixpoint sequentially (toolName : string) (registry : Obj FlagDef)
         (entries : Obj (list string)) (h : Host)
  : list Event * Outcome unit * Host :=
  match entries with
  | [] => ([], Returned tt, h)
  | (argName, values) :: rest =>
      match obj_get argName registry with
      | None =>
          ([], Thrown (JsErr "TypeError" "Cannot read properties of undefined"), h)
      | Some def =>
          let '(printed, result, h1) :=
            handler_effect toolName registry (f def) values h in
          match result with
          | Returned _ =>
              let '(events, result', h2) :=
                sequentially toolName registry rest h1 in
              (Invoke argName values :: map Console printed
                 ++ Fulfilled argName :: events,
               result', h2)
          | _ => (Invoke argName values :: map Console printed, result, h1)
          end
      end
  end.

(** The shape of the trace of a sequential dispatch: for each entry in
    turn the invocation, the console calls of the handler, and the
    fulfilment; nothing after a handler that did not fulfil. *)
Inductive SequentialTrace
  : list (string * list string) -> list Event -> Outcome unit -> Prop :=
  | SequentialTrace_done :
      SequentialTrace [] [] (Returned tt)
  | SequentialTrace_next argName values rest body tr res :
      Forall is_console body ->
      SequentialTrace rest tr res ->
      SequentialTrace ((argName, values) :: rest)
        (Invoke argName values :: body ++ Fulfilled argName :: tr) res
  | SequentialTrace_abort argName values rest body res :
      Forall is_console body ->
      res <> Returned tt ->
      SequentialTrace ((argName, values) :: rest)
        (Invoke argName values :: body) res.

(** The banner [handleError] prints, and the hint [run] prints when no
    flag was given. *)
Definition error_banner (toolName : string) : Event :=
  Console (ConsoleLog ("ERROR: Something went wrong. Run '" +:+ toolName
                       +:+ " -h' for supported usage") []).

Definition no_flags_hint (toolName : string) : Event :=
  Console (ConsoleLog ("No input flags provided. Run '" +:+ toolName
                       +:+ " -h' for supported usage.") []).

(** The error [processParsedArguments] raises for the key [argName]. *)
Definition invalid_argument (argName : string) : JsError :=
  JsErr "Error" ("Invalid argument: " +:+ argName).

(** The object [run] dispatches on: the parsed arguments without the
    reserved bucket. *)
Definition processed (st : State) : Obj (list string) :=
  obj_delete "unknowns" (buckets (argv st)).

(** The state of [run] after it has set the tool name, merged the
    caller's registry, parsed the arguments and removed the reserved
    bucket: the state in which validation and dispatch take place. *)
Definition started (runParams : option RunParams) (st : State) : State :=
  let runParams := default (mkRunParams None None) runParams in
  set_heap (heap st ++ [processed st])
    (set_supportedArguments
       (merged (default [] (param_supportedArguments runParams))
               (supportedArguments st))
       (set_cliToolName (default "my-cli" (param_cliToolName runParams)) st)).

(** *** The dispatch loop of [run], one step at a time *)

(** Where [run] is in its loop
    [for (const argName of Object.keys(processedArgs))
       await supportedArguments[argName].f.call(this, ...processedArgs[argName])]:
    running, with the keys still to take; suspended at the [await] on the
    job that the call for [argName] has started; or over, with the result
    of [run]. *)
Inductive Status : Type :=
  | Looping (keys : list string)
  | Awaiting (argName : string) (job : Job) (keys : list string)
  | Ended (result : Outcome unit).

(** What a step is: [run] calls the handler of a flag with values; the
    event loop resumes the job of that handler for one segment; [run] is
    resumed from the [await] with a fulfilled result; the [await] throws
    (or the process ends, or the call itself fails); the loop of [run] is
    over; or some other callback of the process runs. *)
Inductive Label : Type :=
  | Called (argName : string) (values : list string)
  | Ran (argName : string) (printed : list ConsoleEvent)
  | Resumed (argName : string)
  | Raised (argName : string) (result : Outcome unit)
  | Completed
  | Other (printed : list ConsoleEvent).

(** The part of a job that runs inside the call: up to the return or to
    the first [await] of the handler. *)
Definition begin_job (job : Job) (st : State) : Job * State :=
  match job with
  | Settled result => (Settled result, st)
  | Segment effect next => (next (host st), run_segment effect st)
  end.

(** [fn.call(this, ...values)]: the job in progress after the call, and
    the state the call leaves.  The built-in help awaits
    [outputSupportedUsage()], an async function without an [await] of its
    own, which has printed, or thrown, when the call returns. *)
Definition start (fn : HandlerFn) (values : list string) (st : State)
  : Job * State :=
  match fn with
  | HelpFn => (Settled (fst (outputSupportedUsage st)), snd (outputSupportedUsage st))
  | VersionFn => begin_job (version_f (cliToolName st) values) st
  | CallerFn code => begin_job (code values) st
  end.

(** The steps of the process while [run] is in its loop over the object
    behind [processedArgs].  JavaScript runs each piece of code to its
    end: between the resumption of [run] and its next call nothing else
    runs, and other callbacks of the process (of the embedding tool, or
    left behind by earlier handlers) run only while [run] is suspended;
    what they print and what they do to the host is arbitrary.  (When a
    handler that is not async throws, [run] is not suspended before the
    exception reaches it; the steps allow other callbacks there as well,
    which adds runs and removes none.) *)
Inductive step (processedArgs : loc)
  : Status * State -> Label -> Status * State -> Prop :=
  | step_call argName keys st def o values job st1 :
      obj_get argName (supportedArguments st) = Some def ->
      heap st !! processedArgs = Some o ->
      obj_get argName o = Some values ->
      start (f def) values (set_trace (trace st ++ [Invoke argName values]) st)
      = (job, st1) ->
      step processedArgs (Looping (argName :: keys), st)
           (Called argName values) (Awaiting argName job keys, st1)
  | step_no_handler argName keys st :
      obj_get argName (supportedArguments st) = None ->
      step processedArgs (Looping (argName :: keys), st)
           (Raised argName
              (Thrown (JsErr "TypeError" "Cannot read properties of undefined")))
           (Ended (Thrown (JsErr "TypeError" "Cannot read properties of undefined")),
            st)
  | step_no_values argName keys st def o :
      obj_get argName (supportedArguments st) = Some def ->
      heap st !! processedArgs = Some o ->
      obj_get argName o = None ->
      step processedArgs (Looping (argName :: keys), st)
           (Raised argName (Thrown (JsErr "TypeError" "undefined is not iterable")))
           (Ended (Thrown (JsErr "TypeError" "undefined is not iterable")), st)
  | step_segment argName effect next keys st :
      step processedArgs (Awaiting argName (Segment effect next) keys, st)
           (Ran argName (fst (effect (host st))))
           (Awaiting argName (next (host st)) keys, run_segment effect st)
  | step_resume argName keys st :
      step processedArgs (Awaiting argName (Settled (Returned tt)) keys, st)
           (Resumed argName)
           (Looping keys, set_trace (trace st ++ [Fulfilled argName]) st)
  | step_raise argName result keys st :
      result <> Returned tt ->
      step processedArgs (Awaiting argName (Settled result) keys, st)
           (Raised argName result) (Ended result, st)
  | step_complete st :
      step processedArgs (Looping [], st) Completed (Ended (Returned tt), st)
  | step_other argName job keys st printed h :
      step processedArgs (Awaiting argName job keys, st) (Other printed)
           (Awaiting argName job keys,
            set_host h (set_trace (trace st ++ map Console printed) st)).

(** Finitely many steps, with their labels in order. *)
Inductive steps (processedArgs : loc)
  : Status * State -> list Label -> Status * State -> Prop :=
  | steps_done c : steps processedArgs c [] c
  | steps_next c l c1 ls c2 :
      step processedArgs c l c1 ->
      steps processedArgs c1 ls c2 ->
      steps processedArgs c (l :: ls) c2.

(** The result of [run], once it is over. *)
Definition result_of (status : Status) : option (Outcome unit) :=
  match status with
  | Ended result => Some result
  | _ => None
  end.

(** The labels of an orderly dispatch of [entries], complete or not, with
    the result of [run] when it is over.
    [InOrder entries ls result]: [ls] starts with the call for the first
    entry, with the values of that entry, and goes on as a turn of that
    entry; or there is no entry, the loop is over and [run] returns; or
    nothing has happened yet.
    [InTurn argName rest ls result], the turn of [argName]: segments of
    the job of [argName] and other callbacks, in any number and order, and
    no call; then either the turn is not over, or the awaited result is
    not fulfilled, it is the result of [run] and nothing follows, or [run]
    is resumed and an orderly dispatch of the entries [rest] follows. *)
Inductive InOrder
  : Obj (list string) -> list Label -> option (Outcome unit) -> Prop :=
  | InOrder_not_started entries : InOrder entries [] None
  | InOrder_completed : InOrder [] [Completed] (Some (Returned tt))
  | InOrder_called argName values rest ls result :
      InTurn argName rest ls result ->
      InOrder ((argName, values) :: rest) (Called argName values :: ls) result
with InTurn
  : string -> Obj (list string) -> list Label -> option (Outcome unit) -> Prop :=
  | InTurn_suspended argName rest : InTurn argName rest [] None
  | InTurn_ran argName rest printed ls result :
      InTurn argName rest ls result ->
      InTurn argName rest (Ran argName printed :: ls) result
  | InTurn_other argName rest printed ls result :
      InTurn argName rest ls result ->
      InTurn argName rest (Other printed :: ls) result
  | InTurn_raised argName rest raised :
      raised <> Returned tt ->
      InTurn argName rest [Raised argName raised] (Some raised)
  | InTurn_resumed argName rest ls result :
      InOrder rest ls result ->
      InTurn argName rest (Resumed argName :: ls) result.

(** No other callback runs. *)
Definition undisturbed (l : Label) : Prop :=
  match l with Other _ => False | _ => True end.

(** *** Concrete inputs *)

(** The state of a process that has just loaded the router: the tool name
    and the registry have their initial values, nothing is stored or
    printed yet. *)
Definition initial_state (h : Host) (args : list string) (cols : option nat)
  : State :=
  mkState "my-cli" builtinArguments [] args cols [] h.

(** A handler that is not async: it prints [text] with its arguments and
    returns; one that throws; and an async one that prints [text], awaits,
    prints its arguments, awaits again, and is done. *)
Definition announce (text : string) : HostCode :=
  fun args =>
    Segment (fun h => ([ConsoleLog text args], h))
            (fun _ => Settled (Returned tt)).

Definition failing (message : string) : HostCode :=
  fun _ => Settled (Thrown (JsErr "Error" message)).

Definition twoSteps (text : string) : HostCode :=
  fun args =>
    Segment (fun h => ([ConsoleLog text []], h))
      (fun _ => Segment (fun h => ([ConsoleLog "%s" args], h))
                        (fun _ => Settled (Returned tt))).

(** A caller's configuration with three flags: the handler of the first
    is async, that of the second throws. *)
Definition example_params : RunParams :=
  mkRunParams (Some "demo")
    (Some [ ("-a", mkFlagDef "alpha" "prints" (Some ["x"; "y"])
                             (CallerFn (twoSteps "a")));
            ("-b", mkFlagDef "beta" "throws" None (CallerFn (failing "boom")));
            ("-c", mkFlagDef "gamma" "prints" None (CallerFn (announce "c"))) ]).

(** A registry in which two flags share the canonical name
    "hasOwnProperty", and one with a definition named "__proto__". *)
Definition shadowing_registry : Obj FlagDef :=
  [ ("-o", mkFlagDef "hasOwnProperty" "own" None HelpFn);
    ("--own", mkFlagDef "hasOwnProperty" "own" None HelpFn);
    ("-h", help) ].

Definition proto_registry : Obj FlagDef :=
  [ ("-p", mkFlagDef "__proto__" "proto" None HelpFn); ("-h", help) ].

(** A state whose store holds two parsed-arguments objects: one without
    the reserved bucket and with the unregistered flag "-x", one with the
    reserved bucket and a registered flag. *)
Definition example_store_state (h : Host) : State :=
  mkState "my-cli" builtinArguments
          [ [("-h", []); ("-x", ["foo"; "bar"])];
            [("unknowns", ["node"; "script.js"]); ("-v", [])] ]
          [] None [] h.

(** *** Further functions of the sources *)

(** The callback that [version.f] of [src/parser.js] registers on the
    output of [npm list -g] takes positions in strings.  For it a
    JavaScript string is the sequence of its UTF-16 code units, which is
    what [length], [indexOf] and [substring] count. *)

(** The code units of a text of ASCII characters, such as the literal
    parts of a template. *)
Definition units (s : string) : list N :=
  map N_of_ascii (list_ascii_of_string s).

(** [s.startsWith(t)] *)
Fixpoint startsWith (s t : list N) : bool :=
  match t, s with
  | [], _ => true
  | _ :: _, [] => false
  | y :: t', x :: s' => N.eqb x y && startsWith s' t'
  end.

(** [s.indexOf(t)]: the first position at which [t] occurs in [s], or
    -1. *)
Fixpoint indexOf (s t : list N) : Z :=
  if startsWith s t then 0%Z
  else
    match s with
    | [] => (-1)%Z
    | _ :: s' =>
        let i := indexOf s' t in
        if (i <? 0)%Z then (-1)%Z else (i + 1)%Z
    end.

(** [s.substring(a, b)]: both indices are clamped to the length of [s]
    and swapped when the first exceeds the second. *)
Definition js_substring (s : list N) (a b : Z) : list N :=
  let len := Z.of_nat (length s) in
  let a' := Z.min (Z.max a 0) len in
  let b' := Z.min (Z.max b 0) len in
  let from := Z.min a' b' in
  let to := Z.max a' b' in
  firstn (Z.to_nat (to - from)) (skipn (Z.to_nat from) s).

(** [remainingString] in the callback, for the value [toolName] of
    [cliToolName] and the text [data] of the chunk. *)
Definition remainingString_of (toolName data : list N) : list N :=
  let posStartOfVersionNumber :=
    (indexOf data toolName + Z.of_nat (length toolName) + 1)%Z in
  js_substring data posStartOfVersionNumber (Z.of_nat (length data)).

(** The callback [stdout.on("data", ...)] of [version.f] in
    [src/parser.js], run on one chunk: the text of its one call of
    [console.log]. *)
Definition version_on_data (toolName data : list N) : list N :=
  let remainingString := remainingString_of toolName data in
  toolName ++ units " CLI global version: " ++ remainingString.

(** The wrappers of [printFormattedMessage] ([src/unnamed/part_001]);
    only [printErrorMessage] takes and forwards further arguments. *)
Definition printErrorMessage (message : option string) (logArgs : list string)
  : M unit :=
  printFormattedMessage (Some (default "" message))
    (Some commandLineFormats.default) (Some commandLineFormats.danger) logArgs.

Definition printWarningMessage (message : option string) : M unit :=
  printFormattedMessage (Some (default "" message))
    (Some commandLineFormats.default) (Some commandLineFormats.warning) [].

Definition printInfoMessage (message : option string) : M unit :=
  printFormattedMessage (Some (default "" message))
    (Some commandLineFormats.default) (Some commandLineFormats.info) [].

Definition printSuccessMessage (message : option string) : M unit :=
  printFormattedMessage (Some (default "" message))
    (Some commandLineFormats.default) (Some commandLineFormats.success) [].

Definition printSubHeadingMessage (message : option string) : M unit :=
  printFormattedMessage (Some (default "" message))
    (Some commandLineFormats.subHeading) (Some commandLineFormats.secondary) [].

Definition printTerminalMessage (message : option string) : M unit :=
  printFormattedMessage (Some (default "" message))
    (Some commandLineFormats.terminal) (Some commandLineFormats.terminal) [].

(** *** Further vocabulary *)

(** The distinct elements of a list, in the order of their first
    occurrence. *)
Fixpoint uniq (l : list string) : list string :=
  match l with
  | [] => []
  | x :: l' => x :: List.filter (fun y => negb (String.eqb y x)) (uniq l')
  end.

(** The handler invocations recorded in a trace, in order. *)
Fixpoint invocations (tr : list Event) : list (string * list string) :=
  match tr with
  | [] => []
  | Invoke argName values :: tr' => (argName, values) :: invocations tr'
  | _ :: tr' => invocations tr'
  end.

(** A format name is one of the twelve semantic names. *)
Definition recognized (format : string) : bool :=
  includes (obj_keys semanticCodes) format.

(** What the caller of [run] supplied as registry, [{}] when nothing. *)
Definition supplied_of (runParams : option RunParams) : Obj FlagDef :=
  default [] (param_supportedArguments
                (default (mkRunParams None None) runParams)).

(** The tool name [run] sets. *)
Definition toolName_of (runParams : option RunParams) : string :=
  default "my-cli" (param_cliToolName
                      (default (mkRunParams None None) runParams)).

(** One styled console call, as [outputFormattedLog] makes it. *)
Definition styled (style text : string) (logArgs : list string) : Event :=
  Console (ConsoleLog (style +:+ "%s" +:+ commandLineColors.reset)
                      (text :: logArgs)).

(** The state with another [process.argv]. *)
Definition set_argv (v : list string) (st : State) : State :=
  mkState (cliToolName st) (supportedArguments st) (heap st) v (columns st)
          (trace st) (host st).

(** ** Properties *)

(** Propositional steps; the functions of the host are set aside first, as
    their types read as implications. *)
Ltac prop := clear toUpperCase execPromise version_f; tauto.

(** *** Strings *)

Lemma append_cons (c : ascii) (s t : string) :
  String c s +:+ t = String c (s +:+ t).
Proof. reflexivity. Qed.

Lemma append_nil_r (s : string) : s +:+ "" = s.
Proof.
  induction s as [|c s IH]; [reflexivity|].
  now rewrite append_cons, IH.
Qed.

Lemma append_assoc (s t u : string) : (s +:+ t) +:+ u = s +:+ (t +:+ u).
Proof.
  induction s as [|c s IH]; [reflexivity|].
  now rewrite !append_cons, IH.
Qed.

Lemma length_append (s t : string) :
  String.length (s +:+ t) = String.length s + String.length t.
Proof.
  induction s as [|c s IH]; [reflexivity|].
  rewrite append_cons. simpl. now rewrite IH.
Qed.

Lemma length_str_repeat (s : string) (n : nat) :
  String.length (str_repeat s n) = n * String.length s.
Proof.
  induction n as [|n IH]; simpl; [reflexivity|].
  rewrite length_append, IH. lia.
Qed.

(** *** The format fold *)

Lemma format_switch_contribution (finalFormat format : string) :
  format_switch finalFormat format = finalFormat +:+ contribution format.
Proof.
  unfold format_switch, contribution, semanticCodes.
  unfold commandLineFormats.heading, commandLineFormats.subHeading,
    commandLineFormats.default, commandLineFormats.primary,
    commandLineFormats.secondary, commandLineFormats.success,
    commandLineFormats.danger, commandLineFormats.warning,
    commandLineFormats.info, commandLineFormats.light,
    commandLineFormats.dark, commandLineFormats.terminal.
  cbn [obj_get].
  rewrite !(String.eqb_sym format).
  repeat (match goal with
          | |- context [String.eqb ?k format] =>
              destruct (String.eqb k format); [reflexivity|]
          end).
  symmetry. apply append_nil_r.
Qed.

Lemma fold_format_switch (formats : list string) (finalFormat : string) :
  fold_left format_switch formats finalFormat
  = finalFormat +:+ str_concat (map contribution formats).
Proof.
  revert finalFormat.
  induction formats as [|format formats IH]; intros finalFormat; simpl.
  - symmetry. apply append_nil_r.
  - rewrite IH, format_switch_contribution. apply append_assoc.
Qed.

Lemma contribution_unrecognized (format : string) :
  In format (obj_keys semanticCodes) \/ contribution format = "".
Proof.
  unfold contribution.
  destruct (obj_get format semanticCodes) as [code|] eqn:Hget; [left | now right].
  revert Hget. generalize semanticCodes. intros o.
  induction o as [|[k v] o IH]; simpl; [discriminate|].
  destruct (String.eqb_spec k format) as [->|_]; [now left|].
  intros H. right. now apply IH.
Qed.

(** C6: [getCommandLineFormat] is a left-to-right fold from the reset
    code: the result for any sequence is the reset code followed by the
    contribution of each name in argument order, one more name appends
    its contribution at the end, the contribution of each recognized
    name is its ANSI code (for "terminal" the foreground-white and
    background-black pair), a name outside the twelve semantic names
    contributes nothing, and the three stated instances hold. *)
Theorem getCommandLineFormat_is_fold :
  (forall formats : list string,
      getCommandLineFormat formats
      = commandLineColors.reset +:+ str_concat (map contribution formats))
  /\ (forall (formats : list string) (format : string),
         getCommandLineFormat (formats ++ [format])
         = getCommandLineFormat formats +:+ contribution format)
  /\ Forall (fun entry => forall finalFormat : string,
                 format_switch finalFormat (fst entry)
                 = finalFormat +:+ snd entry) semanticCodes
  /\ (forall finalFormat format : string,
         In format (obj_keys semanticCodes)
         \/ format_switch finalFormat format = finalFormat)
  /\ contribution "terminal"
     = commandLineColors.foregroundWhite +:+ commandLineColors.backgroundBlack
  /\ getCommandLineFormat [] = commandLineColors.reset
  /\ getCommandLineFormat ["unknown-name"] = commandLineColors.reset
  /\ getCommandLineFormat ["heading"; "primary"]
     = commandLineColors.reset +:+ commandLineColors.bright
       +:+ commandLineColors.foregroundBlue.
Proof.
  split; [|split; [|split; [|split; [|split; [|split; [|split]]]]]].
  - intros formats. apply fold_format_switch.
  - intros formats format. unfold getCommandLineFormat.
    rewrite fold_left_app. simpl. apply format_switch_contribution.
  - unfold semanticCodes.
    repeat (constructor; [intros finalFormat; reflexivity|]).
    constructor.
  - intros finalFormat format.
    destruct (contribution_unrecognized format) as [Hin|Hnone]; [now left|].
    right. rewrite format_switch_contribution, Hnone. apply append_nil_r.
  - reflexivity.
  - reflexivity.
  - reflexivity.
  - reflexivity.
Qed.

(** *** Objects *)

Lemma obj_get_set_eq {V} (k : string) (v : V) (o : Obj V) :
  obj_get k (obj_set k v o) = Some v.
Proof.
  induction o as [|[k' v'] o IH]; simpl.
  - now rewrite String.eqb_refl.
  - destruct (String.eqb k' k) eqn:E; simpl.
    + now rewrite String.eqb_refl.
    + now rewrite E.
Qed.

Lemma obj_get_set_ne {V} (k k' : string) (v : V) (o : Obj V) :
  k <> k' -> obj_get k' (obj_set k v o) = obj_get k' o.
Proof.
  intros Hne. induction o as [|[k0 v0] o IH]; simpl.
  - apply String.eqb_neq in Hne. now rewrite Hne.
  - destruct (String.eqb_spec k0 k) as [->|Hk0]; simpl.
    + apply String.eqb_neq in Hne. now rewrite Hne.
    + now rewrite IH.
Qed.

Lemma obj_get_delete_eq {V} (k : string) (o : Obj V) :
  obj_get k (obj_delete k o) = None.
Proof.
  induction o as [|[k' v'] o IH]; simpl; [reflexivity|].
  destruct (String.eqb k' k) eqn:E; simpl; [assumption|].
  now rewrite E.
Qed.

Lemma obj_get_delete_ne {V} (k k' : string) (o : Obj V) :
  k <> k' -> obj_get k' (obj_delete k o) = obj_get k' o.
Proof.
  intros Hne. induction o as [|[k0 v0] o IH]; simpl; [reflexivity|].
  destruct (String.eqb_spec k0 k) as [->|Hk0]; simpl.
  - apply String.eqb_neq in Hne. now rewrite Hne.
  - now rewrite IH.
Qed.

Lemma obj_delete_absent {V} (k : string) (o : Obj V) :
  obj_get k o = None -> obj_delete k o = o.
Proof.
  induction o as [|[k' v'] o IH]; simpl; [reflexivity|].
  destruct (String.eqb k' k); [discriminate|].
  intros H. now rewrite IH.
Qed.

Lemma obj_keys_delete {V} (k : string) (o : Obj V) :
  obj_keys (obj_delete k o)
  = List.filter (fun k' => negb (String.eqb k' k)) (obj_keys o).
Proof.
  induction o as [|[k' v'] o IH]; simpl; [reflexivity|].
  destruct (String.eqb k' k); simpl; [assumption|].
  now rewrite <- IH.
Qed.

Lemma obj_get_None {V} (k : string) (o : Obj V) :
  obj_get k o = None <-> ~ In k (obj_keys o).
Proof.
  induction o as [|[k' v'] o IH]; simpl; [prop|].
  destruct (String.eqb_spec k' k) as [->|Hne].
  - split; [discriminate | prop].
  - rewrite IH. prop.
Qed.

Lemma obj_get_Forall {V} (P : V -> Prop) (k : string) (v : V) (o : Obj V) :
  Forall (fun kv => P (snd kv)) o -> obj_get k o = Some v -> P v.
Proof.
  induction 1 as [|[k' v'] o Hhead Htail IH]; simpl; [discriminate|].
  destruct (String.eqb k' k); [|exact IH].
  intros Hv. injection Hv as <-. exact Hhead.
Qed.

Lemma obj_set_absent {V} (k : string) (v : V) (o : Obj V) :
  obj_get k o = None -> obj_set k v o = o ++ [(k, v)].
Proof.
  induction o as [|[k' v'] o IH]; simpl; [reflexivity|].
  destruct (String.eqb k' k); [discriminate|].
  intros H. now rewrite IH.
Qed.

Lemma obj_keys_set_present {V} (k : string) (v : V) (o : Obj V) :
  obj_get k o <> None -> obj_keys (obj_set k v o) = obj_keys o.
Proof.
  induction o as [|[k' v'] o IH]; simpl; [congruence|].
  destruct (String.eqb_spec k' k) as [->|Hne]; simpl; [reflexivity|].
  intros H. now rewrite IH.
Qed.

Lemma obj_keys_set_NoDup {V} (k : string) (v : V) (o : Obj V) :
  NoDup (obj_keys o) -> NoDup (obj_keys (obj_set k v o)).
Proof.
  intros Hnd.
  destruct (obj_get k o) eqn:Hget.
  - rewrite obj_keys_set_present; [assumption | congruence].
  - rewrite obj_set_absent by assumption.
    unfold obj_keys. rewrite map_app. simpl.
    apply NoDup_app. repeat split.
    + exact Hnd.
    + intros x Hx [->|[]]%list_elem_of_In. apply obj_get_None in Hget.
      apply Hget. now apply list_elem_of_In.
    + apply NoDup_singleton.
Qed.

Lemma includes_In (xs : list string) (x : string) :
  includes xs x = true <-> In x xs.
Proof.
  unfold includes. rewrite existsb_exists. split.
  - intros [y [Hy E]]. apply String.eqb_eq in E. now subst.
  - intros H. exists x. split; [assumption | apply String.eqb_refl].
Qed.

(** *** The store *)

Lemma set_heap_same (st : State) : set_heap (heap st) st = st.
Proof. now destruct st. Qed.

Lemma set_heap_set_heap (h1 h2 : list (Obj (list string))) (st : State) :
  set_heap h2 (set_heap h1 st) = set_heap h2 st.
Proof. reflexivity. Qed.

Lemma read_object_valid (r : loc) (o : Obj (list string)) (st : State) :
  heap st !! r = Some o -> read_object r st = (Returned o, st).
Proof. intros H. unfold read_object. now rewrite H. Qed.

Lemma set_prop_valid (r : loc) (k : string) (v : list string)
      (o : Obj (list string)) (st : State) :
  heap st !! r = Some o ->
  set_prop r k v st
  = (Returned tt, set_heap (<[r := obj_set k v o]> (heap st)) st).
Proof.
  intros H. unfold set_prop, bind. now rewrite (read_object_valid r o).
Qed.

Lemma push_prop_valid (r : loc) (k x : string) (vs : list string)
      (o : Obj (list string)) (st : State) :
  heap st !! r = Some o ->
  obj_get k o = Some vs ->
  push_prop r k x st
  = (Returned tt, set_heap (<[r := obj_set k (vs ++ [x]) o]> (heap st)) st).
Proof.
  intros H Hk. unfold push_prop, bind.
  rewrite (read_object_valid r o) by assumption. now rewrite Hk.
Qed.

Lemma delete_prop_valid (r : loc) (k : string) (o : Obj (list string))
      (st : State) :
  heap st !! r = Some o ->
  delete_prop r k st
  = (Returned tt, set_heap (<[r := obj_delete k o]> (heap st)) st).
Proof.
  intros H. unfold delete_prop, bind. now rewrite (read_object_valid r o).
Qed.

Lemma heap_after_write (r : loc) (o o' : Obj (list string)) (st : State) :
  heap st !! r = Some o ->
  heap (set_heap (<[r := o']> (heap st)) st) !! r = Some o'.
Proof.
  intros H. simpl. apply list_lookup_insert_eq. now apply lookup_lt_Some in H.
Qed.

(** *** [parseInputArguments] *)

(** The scan over the store computes [bucket_step] on the object behind
    the reference. *)
Lemma scan_argv_fold (args : list string) :
  forall (r : loc) (currentArgName : string) (o : Obj (list string))
         (st : State),
    heap st !! r = Some o ->
    obj_get currentArgName o <> None ->
    scan_argv r currentArgName args st
    = (Returned tt,
       set_heap (<[r := fst (fold_left bucket_step args (o, currentArgName))]>
                   (heap st)) st).
Proof.
  induction args as [|arg rest IH]; intros r cur o st Hr Hcur; simpl.
  - unfold ret. rewrite list_insert_id by assumption.
    now rewrite set_heap_same.
  - fold (isFlag arg). destruct (isFlag arg) eqn:Hflag.
    + unfold bind. rewrite (set_prop_valid r arg [] o) by assumption.
      rewrite (IH r arg (obj_set arg [] o)).
      * simpl. now rewrite list_insert_insert_eq.
      * now apply heap_after_write with (o := o).
      * now rewrite obj_get_set_eq.
    + destruct (obj_get cur o) as [vs|] eqn:Hget; [|congruence].
      unfold bind. rewrite (push_prop_valid r cur arg vs o) by assumption.
      rewrite (IH r cur (obj_set cur (vs ++ [arg]) o)).
      * simpl. now rewrite list_insert_insert_eq.
      * now apply heap_after_write with (o := o).
      * now rewrite obj_get_set_eq.
Qed.

(** [parseInputArguments] returns a fresh reference to the object
    [buckets (argv st)] and changes nothing else. *)
Lemma parseInputArguments_run (st : State) :
  parseInputArguments st
  = (Returned (length (heap st)),
     set_heap (heap st ++ [buckets (argv st)]) st).
Proof.
  unfold parseInputArguments, bind, new_object, gets. simpl.
  rewrite (scan_argv_fold (argv st) (length (heap st)) "unknowns"
             [("unknowns", [])]).
  - unfold ret, buckets, set_heap. simpl. do 2 f_equal.
    rewrite <- (Nat.add_0_r (length (heap st))) at 1.
    now rewrite insert_app_r.
  - simpl. now apply list_lookup_middle.
  - simpl. congruence.
Qed.

Lemma isFlag_not_unknowns (k : string) :
  isFlag k = true -> String.eqb k "unknowns" = false.
Proof.
  intros H. apply String.eqb_neq. intros ->. discriminate H.
Qed.

Lemma option_map_app_nil (x : option (list string)) :
  option_map (fun vs => vs ++ []) x = x.
Proof. destruct x as [vs|]; simpl; [now rewrite app_nil_r | reflexivity]. Qed.

(** The bucket of every key after the scan of [args] from the object [o]
    with current bucket [cur]. *)
Lemma fold_bucket_step_get (args : list string) :
  forall (o : Obj (list string)) (cur k : string),
    obj_get k (fst (fold_left bucket_step args (o, cur)))
    = match (if isFlag k then last_run k args else None) with
      | Some vs => Some vs
      | None =>
          if String.eqb k cur then
            option_map (fun vs => vs ++ leading args) (obj_get k o)
          else obj_get k o
      end.
Proof.
  induction args as [|arg rest IH]; intros o cur k.
  - simpl. destruct (isFlag k); destruct (String.eqb k cur);
      now rewrite ?option_map_app_nil.
  - cbn [fold_left]. unfold bucket_step at 2.
    destruct (isFlag arg) eqn:Harg.
    + rewrite IH. cbn [last_run leading]. rewrite Harg.
      destruct (isFlag k) eqn:Hk.
      * destruct (last_run k rest) as [vs|]; [reflexivity|].
        destruct (String.eqb_spec arg k) as [->|Hne].
        -- rewrite String.eqb_refl, obj_get_set_eq. reflexivity.
        -- assert (String.eqb k arg = false) as ->
             by (apply String.eqb_neq; congruence).
           rewrite obj_get_set_ne by assumption.
           destruct (String.eqb k cur); now rewrite ?option_map_app_nil.
      * assert (arg <> k) as Hne by (intros ->; congruence).
        assert (String.eqb k arg = false) as ->
          by (apply String.eqb_neq; congruence).
        rewrite obj_get_set_ne by assumption.
        destruct (String.eqb k cur); now rewrite ?option_map_app_nil.
    + assert ((if isFlag k then last_run k (arg :: rest) else None)
              = (if isFlag k then last_run k rest else None)) as ->.
      { destruct (isFlag k) eqn:Hk; [|reflexivity]. cbn [last_run].
        assert (String.eqb arg k = false) as ->
          by (apply String.eqb_neq; intros ->; congruence).
        now destruct (last_run k rest). }
      cbn [leading]. rewrite Harg.
      destruct (obj_get cur o) as [vs|] eqn:Hcur; rewrite IH;
        destruct (if isFlag k then last_run k rest else None); try reflexivity.
      * destruct (String.eqb_spec k cur) as [->|Hne].
        -- rewrite obj_get_set_eq, Hcur. simpl. now rewrite <- app_assoc.
        -- rewrite obj_get_set_ne by congruence. reflexivity.
      * destruct (String.eqb_spec k cur) as [->|Hne]; [|reflexivity].
        now rewrite Hcur.
Qed.

(** The bucket of every key of the parsed object. *)
Lemma buckets_get (args : list string) (k : string) :
  obj_get k (buckets args)
  = if String.eqb k "unknowns" then Some (leading args)
    else if isFlag k then last_run k args
    else None.
Proof.
  unfold buckets. rewrite fold_bucket_step_get.
  destruct (isFlag k) eqn:Hk.
  - rewrite (isFlag_not_unknowns k Hk).
    destruct (last_run k args); [reflexivity|].
    cbn [obj_get]. rewrite String.eqb_sym.
    now rewrite (isFlag_not_unknowns k Hk).
  - destruct (String.eqb_spec k "unknowns") as [->|Hne]; [reflexivity|].
    cbn [obj_get]. apply String.eqb_neq in Hne.
    rewrite String.eqb_sym in Hne. now rewrite Hne.
Qed.

Lemma obj_keys_app {V} (o1 o2 : Obj V) :
  obj_keys (o1 ++ o2) = obj_keys o1 ++ obj_keys o2.
Proof. unfold obj_keys. apply map_app. Qed.

Lemma obj_get_last {V} (k : string) (v : V) (o0 : Obj V) :
  ~ In k (obj_keys o0) -> obj_get k (o0 ++ [(k, v)]) = Some v.
Proof.
  induction o0 as [|[k' v'] o0 IH]; simpl; intros Hnotin.
  - now rewrite String.eqb_refl.
  - destruct (String.eqb_spec k' k) as [->|Hne]; [prop|].
    apply IH. prop.
Qed.

Lemma obj_set_last {V} (k : string) (v v' : V) (o0 : Obj V) :
  ~ In k (obj_keys o0) -> obj_set k v' (o0 ++ [(k, v)]) = o0 ++ [(k, v')].
Proof.
  induction o0 as [|[k0 v0] o0 IH]; simpl; intros Hnotin.
  - now rewrite String.eqb_refl.
  - destruct (String.eqb_spec k0 k) as [->|Hne]; [prop|].
    rewrite IH; [reflexivity | prop].
Qed.

Lemma tokens_of_app (o1 o2 : Obj (list string)) :
  tokens_of (o1 ++ o2) = tokens_of o1 ++ tokens_of o2.
Proof. unfold tokens_of. now rewrite map_app, concat_app. Qed.

Lemma tokens_of_last (o0 : Obj (list string)) (cur arg : string)
      (vs : list string) :
  tokens_of (o0 ++ [(cur, vs ++ [arg])])
  = tokens_of (o0 ++ [(cur, vs)]) ++ [arg].
Proof.
  rewrite !tokens_of_app. unfold tokens_of at 2 4. cbn [map concat fst snd].
  rewrite !app_nil_r, <- app_assoc. f_equal.
  now destruct (String.eqb cur "unknowns").
Qed.

(** When no flag token is repeated and none is a key yet, the scan adds
    the tokens to the object in the order of the input. *)
Lemma fold_bucket_step_tokens (args : list string) :
  forall (o0 : Obj (list string)) (cur : string) (vs : list string),
    ~ In cur (obj_keys o0) ->
    (forall a, In a args -> isFlag a = true -> ~ In a (obj_keys o0 ++ [cur])) ->
    NoDup (List.filter isFlag args) ->
    tokens_of (fst (fold_left bucket_step args (o0 ++ [(cur, vs)], cur)))
    = tokens_of (o0 ++ [(cur, vs)]) ++ args.
Proof.
  induction args as [|arg rest IH]; intros o0 cur vs Hcur Hfresh Hnd.
  - simpl. now rewrite app_nil_r.
  - cbn [fold_left]. unfold bucket_step at 2.
    cbn [List.filter] in Hnd.
    destruct (isFlag arg) eqn:Harg; cbn beta iota.
    + assert (~ In arg (obj_keys (o0 ++ [(cur, vs)]))) as Hnew.
      { rewrite obj_keys_app. apply Hfresh; [now left | assumption]. }
      rewrite obj_set_absent by now apply obj_get_None.
      inversion Hnd as [|x l Hnotin Hnd']; subst.
      transitivity (tokens_of ((o0 ++ [(cur, vs)]) ++ [(arg, [])]) ++ rest).
      * apply (IH (o0 ++ [(cur, vs)]) arg []); try assumption.
        intros a Ha Hflag. rewrite obj_keys_app, in_app_iff.
        intros [Hin|[->|[]]].
        -- apply (Hfresh a); [now right | assumption | exact Hin].
        -- apply Hnotin. apply list_elem_of_In, filter_In. now split.
      * rewrite (tokens_of_app (o0 ++ [(cur, vs)])).
        unfold tokens_of at 2. cbn [map concat fst snd].
        rewrite (isFlag_not_unknowns arg Harg), app_nil_r, <- app_assoc.
        reflexivity.
    + rewrite obj_get_last by assumption.
      rewrite obj_set_last by assumption.
      transitivity (tokens_of (o0 ++ [(cur, vs ++ [arg])]) ++ rest).
      * apply (IH o0 cur (vs ++ [arg])); try assumption.
        intros a Ha. apply Hfresh. now right.
      * rewrite tokens_of_last, <- app_assoc. reflexivity.
Qed.

(** When no flag token is repeated and none is a key yet, overwriting a
    flag's bucket and registering it only when absent are the same. *)
Lemma fold_bucket_step_spec (args : list string) :
  forall (o : Obj (list string)) (cur : string),
    (forall a, In a args -> isFlag a = true -> obj_get a o = None) ->
    NoDup (List.filter isFlag args) ->
    fold_left bucket_step args (o, cur)
    = fold_left spec_bucket_step args (o, cur).
Proof.
  induction args as [|arg rest IH]; intros o cur Hfresh Hnd; [reflexivity|].
  cbn [fold_left]. unfold bucket_step at 2, spec_bucket_step at 2.
  cbn [List.filter] in Hnd.
  destruct (isFlag arg) eqn:Harg; cbn beta iota.
  - unfold hasOwnProperty. rewrite (Hfresh arg) by (assumption || now left).
    inversion Hnd as [|x l Hnotin Hnd']; subst.
    apply IH; [|assumption].
    intros a Ha Hflag. rewrite obj_get_set_ne.
    + apply Hfresh; [now right | assumption].
    + intros ->. apply Hnotin. apply list_elem_of_In, filter_In. now split.
  - destruct (obj_get cur o) as [vs|] eqn:Hcur.
    + apply IH; [|assumption].
      intros a Ha Hflag. rewrite obj_get_set_ne.
      * apply Hfresh; [now right | assumption].
      * intros ->. rewrite (Hfresh a) in Hcur; [discriminate| now right | assumption].
    + apply IH; [|assumption].
      intros a Ha. apply Hfresh. now right.
Qed.

Lemma buckets_distinct_flags (args : list string) :
  NoDup (List.filter isFlag args) ->
  tokens_of (buckets args) = args /\ buckets args = spec_buckets args.
Proof.
  intros Hnd. split.
  - unfold buckets.
    apply (fold_bucket_step_tokens args [] "unknowns" []); try assumption.
    + simpl. prop.
    + intros a _ Hflag [<-|[]]. discriminate Hflag.
  - unfold buckets, spec_buckets. f_equal.
    apply fold_bucket_step_spec; [|assumption].
    intros a _ Hflag. cbn [obj_get]. rewrite String.eqb_sym.
    now rewrite (isFlag_not_unknowns a Hflag).
Qed.


(** *** Sequencing *)

Lemma bind_returned {A B} (m : M A) (k : A -> M B) (st st' : State) (a : A) :
  m st = (Returned a, st') -> bind m k st = k a st'.
Proof. intros H. unfold bind. now rewrite H. Qed.

Lemma bind_thrown {A B} (m : M A) (k : A -> M B) (st st' : State) (e : JsError) :
  m st = (Thrown e, st') -> bind m k st = (Thrown e, st').
Proof. intros H. unfold bind. now rewrite H. Qed.

Lemma bind_exited {A B} (m : M A) (k : A -> M B) (st st' : State) (c : Z) :
  m st = (Exited c, st') -> bind m k st = (Exited c, st').
Proof. intros H. unfold bind. now rewrite H. Qed.

(** *** [processParsedArguments] *)

Lemma set_trace_same (st : State) : set_trace (trace st) st = st.
Proof. now destruct st. Qed.

Lemma handleError_run {A} (message : string) (st : State) :
  @handleError A (Some message) st
  = (Thrown (JsErr "Error" message),
     set_trace (trace st ++ [error_banner (cliToolName st)]) st).
Proof. reflexivity. Qed.

(** The validation loop stops at the first key the registry lacks. *)
Lemma validation_loop (keys : list string) (st : State) :
  forEach keys (fun argName =>
    registry <- gets supportedArguments ;;
    if negb (includes (obj_keys registry) argName) then
      handleError (Some ("Invalid argument: " +:+ argName))
    else ret tt) st
  = match unrecognized (supportedArguments st) keys with
    | [] => (Returned tt, st)
    | argName :: _ =>
        (Thrown (invalid_argument argName),
         set_trace (trace st ++ [error_banner (cliToolName st)]) st)
    end.
Proof.
  induction keys as [|k keys IH]; [reflexivity|].
  cbn [forEach unrecognized List.filter].
  destruct (negb (includes (obj_keys (supportedArguments st)) k)) eqn:Hk.
  - apply bind_thrown.
    erewrite bind_returned by reflexivity.
    rewrite Hk. apply handleError_run.
  - erewrite bind_returned; [apply IH|].
    erewrite bind_returned by reflexivity.
    now rewrite Hk.
Qed.

(** What a call of [processParsedArguments] on a valid reference does. *)
Lemma processParsedArguments_run (r : loc) (o : Obj (list string)) (st : State) :
  heap st !! r = Some o ->
  processParsedArguments (Some r) st
  = let st1 := set_heap (<[r := obj_delete "unknowns" o]> (heap st)) st in
    match unrecognized (supportedArguments st)
                       (obj_keys (obj_delete "unknowns" o)) with
    | [] => (Returned r, st1)
    | argName :: _ =>
        (Thrown (invalid_argument argName),
         set_trace (trace st ++ [error_banner (cliToolName st)]) st1)
    end.
Proof.
  intros Hr. unfold processParsedArguments.
  erewrite bind_returned by reflexivity.
  erewrite bind_returned by (apply delete_prop_valid; eassumption).
  erewrite bind_returned.
  2:{ unfold object_keys. erewrite bind_returned; [reflexivity|].
      apply read_object_valid. now apply heap_after_write with (o := o). }
  cbn zeta.
  set (st1 := set_heap _ st).
  pose proof (validation_loop (obj_keys (obj_delete "unknowns" o)) st1) as Hloop.
  change (supportedArguments st1) with (supportedArguments st) in Hloop.
  change (cliToolName st1) with (cliToolName st) in Hloop.
  change (trace st1) with (trace st) in Hloop.
  destruct (unrecognized _ _) as [|argName rest].
  - erewrite bind_returned by exact Hloop. reflexivity.
  - erewrite bind_thrown by exact Hloop. reflexivity.
Qed.

Lemma unrecognized_nil (registry : Obj FlagDef) (keys : list string) :
  unrecognized registry keys = []
  <-> (forall k, In k keys -> In k (obj_keys registry)).
Proof.
  unfold unrecognized. induction keys as [|k keys IH]; simpl; [prop|].
  destruct (includes (obj_keys registry) k) eqn:Hk; simpl.
  - apply includes_In in Hk. rewrite IH. split.
    + intros H k' [<-|Hin]; auto.
    + intros H k' Hin. apply H. now right.
  - split; [discriminate|]. intros H.
    assert (includes (obj_keys registry) k = true) as Hk'
      by (apply includes_In, H; now left).
    congruence.
Qed.

Lemma unrecognized_first (registry : Obj FlagDef)
      (before after : list string) (argName : string) :
  Forall (fun k => In k (obj_keys registry)) before ->
  ~ In argName (obj_keys registry) ->
  unrecognized registry (before ++ argName :: after)
  = argName :: unrecognized registry after.
Proof.
  intros Hbefore Hnot. unfold unrecognized.
  induction Hbefore as [|k before Hk _ IH]; simpl.
  - destruct (includes (obj_keys registry) argName) eqn:E; [|reflexivity].
    apply includes_In in E. contradiction.
  - apply includes_In in Hk. now rewrite Hk.
Qed.

Lemma unrecognized_In (registry : Obj FlagDef) (keys : list string) (k : string) :
  In k (unrecognized registry keys)
  <-> In k keys /\ ~ In k (obj_keys registry).
Proof.
  unfold unrecognized. rewrite filter_In, negb_true_iff.
  split; intros [Hin Hnot]; (split; [assumption|]).
  - intros Hreg. apply includes_In in Hreg. congruence.
  - destruct (includes (obj_keys registry) k) eqn:E; [|reflexivity].
    apply includes_In in E. contradiction.
Qed.

(** C2: on a parsed-arguments object from which the reserved bucket has
    been removed, [processParsedArguments] raises exactly when some key of
    the object is not a key of the registry; the error is raised for the
    first such key in the order of the object and its message names that
    key; and when every key is in the registry the call returns the
    reference it was given and leaves the whole state, the object
    included, as it was. *)
Theorem processParsedArguments_validates
        (r : loc) (o : Obj (list string)) (st : State) :
  heap st !! r = Some o ->
  obj_get "unknowns" o = None ->
  ((exists e st', processParsedArguments (Some r) st = (Thrown e, st'))
   <-> (exists argName, In argName (obj_keys o)
                        /\ ~ In argName (obj_keys (supportedArguments st))))
  /\ (forall (before after : list string) (argName : string),
         obj_keys o = before ++ argName :: after ->
         Forall (fun k => In k (obj_keys (supportedArguments st))) before ->
         ~ In argName (obj_keys (supportedArguments st)) ->
         processParsedArguments (Some r) st
         = (Thrown (JsErr "Error" ("Invalid argument: " +:+ argName)),
            set_trace (trace st ++ [error_banner (cliToolName st)]) st))
  /\ ((forall k, In k (obj_keys o) -> In k (obj_keys (supportedArguments st))) ->
      processParsedArguments (Some r) st = (Returned r, st)).
Proof.
  intros Hr Hnone.
  pose proof (processParsedArguments_run r o st Hr) as Hrun.
  cbn zeta in Hrun.
  rewrite (obj_delete_absent "unknowns" o Hnone) in Hrun.
  rewrite (list_insert_id _ _ _ Hr), set_heap_same in Hrun.
  split; [|split].
  - rewrite Hrun. split.
    + intros [e [st' H]].
      destruct (unrecognized (supportedArguments st) (obj_keys o))
        as [|argName rest] eqn:Hun; [discriminate|].
      exists argName. apply (unrecognized_In (supportedArguments st)).
      rewrite Hun. now left.
    + intros [argName Harg].
      apply (unrecognized_In (supportedArguments st)) in Harg.
      destruct (unrecognized (supportedArguments st) (obj_keys o))
        as [|k rest]; [destruct Harg|]. eauto.
  - intros before after argName Hkeys Hbefore Hnot.
    rewrite Hrun, Hkeys, unrecognized_first by assumption. reflexivity.
  - intros Hall. apply unrecognized_nil in Hall. now rewrite Hrun, Hall.
Qed.

(** C10: [processParsedArguments] returns the reference it was passed, not
    a copy: no object is allocated, the object behind the reference is the
    old one with the key "unknowns" deleted (this also holds when
    validation fails), every other object of the store is untouched, and
    every other key of the object keeps its value and its place; when
    every remaining key is recognized the call returns that same
    reference and changes nothing else in the state. *)
Theorem processParsedArguments_returns_its_argument
        (r : loc) (o : Obj (list string)) (st : State) :
  heap st !! r = Some o ->
  (forall r', fst (processParsedArguments (Some r) st) = Returned r' -> r' = r)
  /\ length (heap (snd (processParsedArguments (Some r) st))) = length (heap st)
  /\ heap (snd (processParsedArguments (Some r) st)) !! r
     = Some (obj_delete "unknowns" o)
  /\ (forall r', r' <> r ->
                 heap (snd (processParsedArguments (Some r) st)) !! r'
                 = heap st !! r')
  /\ obj_get "unknowns" (obj_delete "unknowns" o) = None
  /\ (forall k, k <> "unknowns" ->
                obj_get k (obj_delete "unknowns" o) = obj_get k o)
  /\ obj_keys (obj_delete "unknowns" o)
     = List.filter (fun k => negb (String.eqb k "unknowns")) (obj_keys o)
  /\ ((forall k, In k (obj_keys o) -> k <> "unknowns" ->
                 In k (obj_keys (supportedArguments st))) ->
      processParsedArguments (Some r) st
      = (Returned r,
         set_heap (<[r := obj_delete "unknowns" o]> (heap st)) st)).
Proof.
  intros Hr.
  pose proof (processParsedArguments_run r o st Hr) as Hrun. cbn zeta in Hrun.
  assert (heap (snd (processParsedArguments (Some r) st))
          = <[r := obj_delete "unknowns" o]> (heap st)) as Hheap.
  { rewrite Hrun. now destruct (unrecognized _ _). }
  repeat split.
  - intros r' H. rewrite Hrun in H.
    destruct (unrecognized _ _); simpl in H; congruence.
  - rewrite Hheap. apply length_insert.
  - rewrite Hheap. apply list_lookup_insert_eq. now apply lookup_lt_Some in Hr.
  - intros r' Hne. rewrite Hheap. apply list_lookup_insert_ne. congruence.
  - apply obj_get_delete_eq.
  - intros k Hne. apply obj_get_delete_ne. congruence.
  - apply obj_keys_delete.
  - intros Hall. rewrite Hrun.
    assert (unrecognized (supportedArguments st)
                         (obj_keys (obj_delete "unknowns" o)) = []) as ->;
      [|reflexivity].
    apply unrecognized_nil. intros k Hk.
    rewrite obj_keys_delete in Hk. apply filter_In in Hk as [Hin Hne].
    apply Hall; [assumption|].
    intros ->. now rewrite String.eqb_refl in Hne.
Qed.

(** *** The variant of [run] in [src/unnamed/part_000] *)

(** C3: in the variant [src/unnamed/part_000] every call of [run] ends by
    throwing the ReferenceError of the assignment to [versionNumber]; at
    that point only [cliToolName] has been written: the registry is the
    one before the call (nothing was merged), no arguments object was
    created (nothing was parsed), and the trace is unchanged (nothing was
    printed, no handler was invoked). *)
Theorem run_part_000_raises (runParams : option RunParams) (st : State) :
  run_part_000 runParams st
  = (Thrown (JsErr "ReferenceError" "versionNumber is not defined"),
     set_cliToolName
       (default "my-cli"
          (param_cliToolName (default (mkRunParams None None) runParams)))
       st)
  /\ supportedArguments (snd (run_part_000 runParams st)) = supportedArguments st
  /\ heap (snd (run_part_000 runParams st)) = heap st
  /\ trace (snd (run_part_000 runParams st)) = trace st
  /\ host (snd (run_part_000 runParams st)) = host st.
Proof. repeat split. Qed.

(** *** The console presenter *)

(** C5: [executeCommand] always returns: when the promise of the shell
    resolves, the result holds the captured standard output and standard
    error; when it rejects (as it does for a command that exits with a
    non-zero status), the result holds the empty output and the failure
    object as its error.  Nothing is thrown in either case. *)
Theorem executeCommand_never_raises (command : string) (st : State) :
  exists result : ExecResult,
    executeCommand command st
    = (Returned result, set_host (snd (execPromise command (host st))) st)
    /\ match fst (execPromise command (host st)) with
       | ExecResolved stdout stderr =>
           output result = stdout /\ error result = ErrStderr stderr
       | ExecRejected e =>
           output result = "" /\ error result = ErrFailure e
       end.
Proof.
  unfold executeCommand, try_catch, bind, ret.
  destruct (execPromise command (host st)) as [[stdout stderr|e] host'];
    eexists; split; simpl; try reflexivity; split; reflexivity.
Qed.

Lemma outputFormattedLog_run (message colorReference : string)
      (logArgs : list string) (st : State) :
  outputFormattedLog message colorReference logArgs st
  = (Returned tt,
     set_trace (trace st ++ [Console (ConsoleLog
                                        (colorReference +:+ "%s"
                                         +:+ commandLineColors.reset)
                                        (message :: logArgs))]) st).
Proof. reflexivity. Qed.

(** C8: with the format type "heading", [printFormattedMessage] makes
    three console calls and returns: the separator line, the message in
    upper case, and the separator line again, each under the style
    resolved from the pair of format type and format colour (the colour
    "dark" when none is given) and followed by the reset code.  The
    separator is a run of ['-'] whose length is the column count of the
    terminal, and 0 (an empty line) when standard output has no column
    count. *)
Theorem printFormattedMessage_heading
        (message : string) (messageColor : option string)
        (logArgs : list string) (st : State) :
  let style :=
    getCommandLineFormat
      [commandLineFormats.heading;
       default commandLineFormats.dark messageColor] in
  let lineText := str_repeat "-" (default 0 (columns st)) in
  let styled text :=
    Console (ConsoleLog (style +:+ "%s" +:+ commandLineColors.reset)
                        (text :: logArgs)) in
  printFormattedMessage (Some message) (Some commandLineFormats.heading)
                        messageColor logArgs st
  = (Returned tt,
     set_trace (trace st ++ [styled lineText; styled (toUpperCase message);
                             styled lineText]) st)
  /\ String.length lineText = default 0 (columns st)
  /\ (forall width, columns st = Some width -> String.length lineText = width)
  /\ (columns st = None -> lineText = "").
Proof.
  intros style lineText styled. split; [|split; [|split]].
  - unfold printFormattedMessage. cbn [from_option id].
    erewrite bind_returned by reflexivity.
    change (String.eqb commandLineFormats.heading commandLineFormats.heading)
      with true. cbn iota.
    erewrite bind_returned by apply outputFormattedLog_run.
    erewrite bind_returned by apply outputFormattedLog_run.
    rewrite outputFormattedLog_run. unfold set_trace. cbn [trace columns
      cliToolName supportedArguments heap argv host].
    rewrite <- !app_assoc. reflexivity.
  - unfold lineText. rewrite length_str_repeat. simpl. lia.
  - intros width Hw. unfold lineText. rewrite length_str_repeat, Hw. simpl. lia.
  - intros Hnone. unfold lineText. now rewrite Hnone.
Qed.

(** *** [outputSupportedUsage] *)

Lemma obj_get_place_index {V} (n : N) (k k' : string) (v : V) (o : Obj V) :
  obj_get k o = None ->
  obj_get k' (place_index n k v o)
  = if String.eqb k k' then Some v else obj_get k' o.
Proof.
  induction o as [|[k0 v0] o IH]; intros Habsent; [reflexivity|].
  cbn [place_index]. destruct (array_index k0) as [n0|]; [|reflexivity].
  destruct (n0 <? n)%N; [|reflexivity].
  cbn [obj_get] in Habsent |- *.
  destruct (String.eqb_spec k0 k) as [->|Hk0]; [discriminate|].
  rewrite (IH Habsent).
  destruct (String.eqb_spec k k') as [<-|Hne]; [|reflexivity].
  apply String.eqb_neq in Hk0. now rewrite Hk0.
Qed.

Lemma obj_keys_place_index {V} (n : N) (k x : string) (v : V) (o : Obj V) :
  In x (obj_keys (place_index n k v o)) <-> x = k \/ In x (obj_keys o).
Proof.
  assert (k = x <-> x = k) as Hsym by (split; congruence).
  induction o as [|[k0 v0] o IH]; [simpl; prop|].
  cbn [place_index]. destruct (array_index k0) as [n0|]; [|simpl; prop].
  destruct (n0 <? n)%N; [|simpl; prop].
  change (k0 = x \/ In x (obj_keys (place_index n k v o))
          <-> x = k \/ k0 = x \/ In x (obj_keys o)).
  rewrite IH. prop.
Qed.

Lemma place_index_NoDup {V} (n : N) (k : string) (v : V) (o : Obj V) :
  ~ In k (obj_keys o) -> NoDup (obj_keys o) ->
  NoDup (obj_keys (place_index n k v o)).
Proof.
  induction o as [|[k0 v0] o IH]; intros Hnotin Hnd.
  - simpl. apply NoDup_singleton.
  - assert (NoDup (k :: obj_keys ((k0, v0) :: o))) as Hfront
      by (constructor; [now rewrite list_elem_of_In | assumption]).
    cbn [place_index]. destruct (array_index k0) as [n0|]; [|exact Hfront].
    destruct (n0 <? n)%N; [|exact Hfront].
    inversion Hnd as [|x l Hk0 Hnd']; subst.
    change (NoDup (k0 :: obj_keys (place_index n k v o))).
    constructor.
    + rewrite list_elem_of_In, obj_keys_place_index.
      rewrite list_elem_of_In in Hk0. simpl in Hnotin.
      intros [->|Hin]; [apply Hnotin; now left | contradiction].
    + apply IH; [|assumption]. simpl in Hnotin. prop.
Qed.

Lemma hasOwnProperty_false {V} (o : Obj V) (k : string) :
  hasOwnProperty o k = false <-> obj_get k o = None.
Proof.
  unfold hasOwnProperty. destruct (obj_get k o); split; congruence.
Qed.

(** Reading after [own_set]: the order of the keys apart, it is the
    assignment of a map. *)
Lemma obj_get_own_set {V} (k k' : string) (v : V) (o : Obj V) :
  obj_get k' (own_set k v o)
  = if String.eqb k k' then Some v else obj_get k' o.
Proof.
  unfold own_set. destruct (hasOwnProperty o k) eqn:Hown.
  - destruct (String.eqb_spec k k') as [<-|Hne];
      [apply obj_get_set_eq | now apply obj_get_set_ne].
  - apply hasOwnProperty_false in Hown.
    destruct (array_index k) as [n|]; [now apply obj_get_place_index|].
    rewrite <- (obj_set_absent k v o Hown).
    destruct (String.eqb_spec k k') as [<-|Hne];
      [apply obj_get_set_eq | now apply obj_get_set_ne].
Qed.

Lemma own_set_NoDup {V} (k : string) (v : V) (o : Obj V) :
  NoDup (obj_keys o) -> NoDup (obj_keys (own_set k v o)).
Proof.
  intros Hnd. unfold own_set. destruct (hasOwnProperty o k) eqn:Hown.
  - now apply obj_keys_set_NoDup.
  - apply hasOwnProperty_false in Hown.
    destruct (array_index k) as [n|].
    + apply place_index_NoDup; [now apply obj_get_None | assumption].
    + rewrite <- (obj_set_absent k v o Hown). now apply obj_keys_set_NoDup.
Qed.

(** One turn of the loop of [outputSupportedUsage], while no row is
    stored under the name "hasOwnProperty" and for a definition that is
    not named "__proto__". *)
Lemma usage_step_get (registry : Obj FlagDef) (usage : Obj UsageRow)
      (k : string) (def : FlagDef) :
  obj_get k registry = Some def ->
  name def <> "__proto__" ->
  hasOwnProperty usage "hasOwnProperty" = false ->
  NoDup (obj_keys usage) ->
  exists usage' : Obj UsageRow,
    usage_step registry usage k = inr usage'
    /\ NoDup (obj_keys usage')
    /\ (name def <> "hasOwnProperty" ->
        hasOwnProperty usage' "hasOwnProperty" = false)
    /\ forall n : string,
         obj_get n usage'
         = if String.eqb (name def) n then
             Some match obj_get n usage with
                  | Some row =>
                      mkUsageRow (Flags row ++ [k]) (Options row) (Description row)
                  | None =>
                      mkUsageRow [k] (default [] (allowedOptions def))
                                 (description def)
                  end
           else obj_get n usage.
Proof.
  intros Hk Hproto Hmethod Hnd. unfold usage_step. rewrite Hk, Hmethod.
  destruct (hasOwnProperty usage (name def)) eqn:Hown; cbn [negb].
  - unfold hasOwnProperty in Hown.
    destruct (obj_get (name def) usage) as [row|] eqn:Hrow; [|discriminate].
    eexists. split; [reflexivity|]. split; [now apply obj_keys_set_NoDup|].
    split.
    + intros Hne. apply hasOwnProperty_false.
      rewrite obj_get_set_ne by assumption. now apply hasOwnProperty_false.
    + intros n. destruct (String.eqb_spec (name def) n) as [<-|Hne].
      * now rewrite obj_get_set_eq, Hrow.
      * now apply obj_get_set_ne.
  - apply String.eqb_neq in Hproto. rewrite Hproto.
    apply hasOwnProperty_false in Hown.
    eexists. split; [reflexivity|]. split; [now apply own_set_NoDup|].
    split.
    + intros Hne. apply hasOwnProperty_false. rewrite obj_get_own_set.
      apply String.eqb_neq in Hne. rewrite Hne. now apply hasOwnProperty_false.
    + intros n. rewrite obj_get_own_set.
      destruct (String.eqb_spec (name def) n) as [<-|Hne]; [|reflexivity].
      now rewrite Hown.
Qed.

(** The rows after the loop has run over [keys] from the table [usage],
    when no definition is named "__proto__" and none but the one under the
    last key is named "hasOwnProperty". *)
Lemma usage_loop_get (registry : Obj FlagDef) (keys : list string) :
  forall usage : Obj UsageRow,
    (forall k, In k keys -> obj_get k registry <> None) ->
    (forall k def, In k keys -> obj_get k registry = Some def ->
                   name def <> "__proto__") ->
    (forall k def, In k (removelast keys) -> obj_get k registry = Some def ->
                   name def <> "hasOwnProperty") ->
    hasOwnProperty usage "hasOwnProperty" = false ->
    NoDup (obj_keys usage) ->
    exists table : Obj UsageRow,
      usage_loop registry keys usage = inr table
      /\ NoDup (obj_keys table)
      /\ forall n : string,
           obj_get n table
           = match obj_get n usage with
             | Some row =>
                 Some (mkUsageRow (Flags row ++ List.filter (has_name registry n) keys)
                                  (Options row) (Description row))
             | None =>
                 match List.filter (has_name registry n) keys with
                 | [] => None
                 | k :: _ =>
                     match obj_get k registry with
                     | Some def =>
                         Some (mkUsageRow (List.filter (has_name registry n) keys)
                                          (default [] (allowedOptions def))
                                          (description def))
                     | None => None
                     end
                 end
             end.
Proof.
  induction keys as [|k keys IH]; intros usage Hreg Hproto Hmethod Hown Hnd.
  - exists usage. split; [reflexivity|]. split; [assumption|].
    intros n. simpl. destruct (obj_get n usage) as [[flags options descr]|];
      [now rewrite app_nil_r | reflexivity].
  - destruct (obj_get k registry) as [def|] eqn:Hk;
      [|now contradiction (Hreg k (or_introl eq_refl))].
    destruct (usage_step_get registry usage k def Hk
                (Hproto k def (or_introl eq_refl) Hk) Hown Hnd)
      as [usage' [Hstep [Hnd' [Hown' Hget]]]].
    assert (forall n, has_name registry n k = String.eqb (name def) n) as Hnamed
      by (intros n; unfold has_name; now rewrite Hk).
    cbn [usage_loop]. rewrite Hstep.
    destruct keys as [|k' keys'].
    + exists usage'. split; [reflexivity|]. split; [assumption|].
      intros n. rewrite Hget. cbn [List.filter]. rewrite Hnamed.
      destruct (String.eqb (name def) n).
      * destruct (obj_get n usage) as [row|]; [reflexivity | now rewrite Hk].
      * destruct (obj_get n usage) as [[flags options descr]|];
          [now rewrite app_nil_r | reflexivity].
    + destruct (IH usage') as [table [Hloop [Hndt Hrows]]].
      * intros k0 Hin. apply Hreg. now right.
      * intros k0 def0 Hin. apply Hproto. now right.
      * intros k0 def0 Hin. apply Hmethod.
        change (removelast (k :: k' :: keys')) with (k :: removelast (k' :: keys')).
        now right.
      * apply Hown'. apply (Hmethod k def); [now left | assumption].
      * assumption.
      * exists table. split; [assumption|]. split; [assumption|].
        intros n. rewrite Hrows, Hget.
        set (rest := k' :: keys').
        cbn [List.filter]. rewrite Hnamed.
        destruct (String.eqb (name def) n).
        -- destruct (obj_get n usage) as [row|]; cbn [Flags Options Description].
           ++ now rewrite <- app_assoc.
           ++ now rewrite Hk.
        -- reflexivity.
Qed.

Lemma usage_table_get (registry : Obj FlagDef) :
  (forall k def, obj_get k registry = Some def -> name def <> "__proto__") ->
  (forall k def, In k (removelast (obj_keys registry)) ->
                 obj_get k registry = Some def ->
                 name def <> "hasOwnProperty") ->
  exists table : Obj UsageRow,
    usage_table registry = inr table
    /\ NoDup (obj_keys table)
    /\ forall n : string, obj_get n table = spec_row registry n.
Proof.
  intros Hproto Hmethod.
  destruct (usage_loop_get registry (obj_keys registry) [])
    as [table [Hloop [Hnd Hrows]]].
  - intros k Hin Hnone. now apply obj_get_None in Hnone.
  - intros k def _. apply Hproto.
  - exact Hmethod.
  - reflexivity.
  - constructor.
  - exists table. split; [exact Hloop|]. split; [exact Hnd|].
    intros n. rewrite Hrows. reflexivity.
Qed.

(** [outputSupportedUsage] prints after the loop, and only when the loop
    has not thrown. *)
Lemma outputSupportedUsage_run (st : State) :
  outputSupportedUsage st
  = match usage_table (supportedArguments st) with
    | inr table =>
        (Returned tt,
         set_trace (trace st
                    ++ [Console (ConsoleLog (cliToolName st +:+ " CLI usage below: ") []);
                        Console (ConsoleTable table)])
                   st)
    | inl e => (Thrown e, st)
    end.
Proof.
  unfold outputSupportedUsage.
  erewrite bind_returned by reflexivity.
  destruct (usage_table (supportedArguments st)) as [e|table]; [reflexivity|].
  erewrite bind_returned by reflexivity.
  erewrite bind_returned by reflexivity.
  unfold console_table, emit, modify, set_trace.
  cbn [trace columns cliToolName supportedArguments heap argv host].
  now rewrite <- app_assoc.
Qed.

(** C9: for a registry in which no definition has the canonical name
    "__proto__" and none but the one under the last flag token has the
    canonical name "hasOwnProperty", [outputSupportedUsage] returns after
    printing the header and one table.  The table has exactly one row per
    canonical name: its keys are pairwise distinct, the row under a name
    is the row of the specification (all flag tokens whose definition has
    that name, the allowed options, or none, and the description of the
    definition under the first such token), and every flag token of the
    registry is listed in the row of the name of its definition.  For the
    registry with "-h" and "--help" both named "help" the table is the
    single row "help" listing both. *)
Theorem outputSupportedUsage_rows (st : State) :
  (forall k def, obj_get k (supportedArguments st) = Some def ->
                 name def <> "__proto__") ->
  (forall k def, In k (removelast (obj_keys (supportedArguments st))) ->
                 obj_get k (supportedArguments st) = Some def ->
                 name def <> "hasOwnProperty") ->
  exists table : Obj UsageRow,
    usage_table (supportedArguments st) = inr table
    /\ outputSupportedUsage st
       = (Returned tt,
          set_trace (trace st
                     ++ [Console (ConsoleLog (cliToolName st +:+ " CLI usage below: ") []);
                         Console (ConsoleTable table)])
                    st)
    /\ NoDup (obj_keys table)
    /\ (forall n : string, obj_get n table = spec_row (supportedArguments st) n)
    /\ (forall (k : string) (def : FlagDef),
           In k (obj_keys (supportedArguments st)) ->
           obj_get k (supportedArguments st) = Some def ->
           exists row, obj_get (name def) table = Some row /\ In k (Flags row))
    /\ usage_table [("-h", help); ("--help", help)]
       = inr [("help", mkUsageRow ["-h"; "--help"] []
                              "Prints the currently supported usage of the CLI")].
Proof.
  intros Hproto Hmethod.
  destruct (usage_table_get (supportedArguments st) Hproto Hmethod)
    as [table [Htable [Hnd Hrows]]].
  exists table. split; [exact Htable|].
  split; [|split; [|split; [|split]]].
  - rewrite outputSupportedUsage_run, Htable. reflexivity.
  - exact Hnd.
  - exact Hrows.
  - intros k def Hin Hk. rewrite Hrows. unfold spec_row.
    assert (In k (tokens_named (supportedArguments st) (name def))) as Hnamed.
    { unfold tokens_named, has_name. apply filter_In. split; [assumption|].
      rewrite Hk. apply String.eqb_refl. }
    destruct (tokens_named (supportedArguments st) (name def))
      as [|k0 rest] eqn:Htok; [destruct Hnamed|].
    assert (In k0 (tokens_named (supportedArguments st) (name def))) as Hk0
      by (rewrite Htok; now left).
    unfold tokens_named, has_name in Hk0. apply filter_In in Hk0 as [_ Hk0].
    destruct (obj_get k0 (supportedArguments st)) as [def0|]; [|discriminate].
    eexists. split; [reflexivity|]. exact Hnamed.
  - reflexivity.
Qed.

(** *** [run] up to the dispatch loop *)

Lemma set_supportedArguments_same (st : State) :
  set_supportedArguments (supportedArguments st) st = st.
Proof. now destruct st. Qed.

Lemma merge_loop (supplied : Obj FlagDef) (keys : list string) :
  forall st : State,
    forEach keys (fun argName =>
      match obj_get argName supplied with
      | Some def =>
          modify (fun st =>
            set_supportedArguments (obj_set argName def (supportedArguments st)) st)
      | None => ret tt
      end) st
    = (Returned tt,
       set_supportedArguments
         (fold_left (fun reg argName =>
                       match obj_get argName supplied with
                       | Some def => obj_set argName def reg
                       | None => reg
                       end) keys (supportedArguments st)) st).
Proof.
  induction keys as [|k keys IH]; intros st.
  - simpl. unfold ret. now rewrite set_supportedArguments_same.
  - cbn [forEach fold_left].
    destruct (obj_get k supplied) as [def|].
    + erewrite bind_returned by reflexivity. rewrite IH. reflexivity.
    + erewrite bind_returned by reflexivity. apply IH.
Qed.

(** [run] of [src/parser.js] up to the dispatch loop: validation failure,
    no flag at all, or the loop over the keys of the processed object. *)
Lemma run_unfold (runParams : option RunParams) (st : State) :
  run runParams st
  = match unrecognized (supportedArguments (started runParams st))
                       (obj_keys (processed st)) with
    | argName :: _ =>
        (Thrown (invalid_argument argName),
         set_trace (trace st ++ [error_banner (cliToolName (started runParams st))])
                   (started runParams st))
    | [] =>
        match obj_keys (processed st) with
        | [] =>
            (Exited 1,
             set_trace (trace st ++ [no_flags_hint (cliToolName (started runParams st))])
                       (started runParams st))
        | keys => forEach keys (dispatch (length (heap st))) (started runParams st)
        end
    end.
Proof.
  unfold run. erewrite bind_returned by reflexivity.
  unfold run_from_merge.
  erewrite bind_returned by apply merge_loop.
  erewrite bind_returned by apply parseInputArguments_run.
  set (st1 := set_heap _ _).
  assert (heap st1 !! length (heap st) = Some (buckets (argv st))) as Hr
    by (simpl; now apply list_lookup_middle).
  pose proof (processParsedArguments_run _ _ _ Hr) as Hrun. cbn zeta in Hrun.
  assert (set_heap (<[length (heap st) := obj_delete "unknowns" (buckets (argv st))]>
                      (heap st1)) st1
          = started runParams st) as Hstarted.
  { unfold started, processed, st1, set_heap. simpl. f_equal.
    rewrite <- (Nat.add_0_r (length (heap st))) at 1.
    now rewrite insert_app_r. }
  rewrite Hstarted in Hrun.
  change (supportedArguments st1)
    with (supportedArguments (started runParams st)) in Hrun.
  change (cliToolName st1) with (cliToolName (started runParams st)) in Hrun.
  change (trace st1) with (trace st) in Hrun.
  fold (processed st) in Hrun.
  destruct (unrecognized (supportedArguments (started runParams st))
                         (obj_keys (processed st))) as [|argName rest].
  - erewrite bind_returned by exact Hrun.
    assert (object_keys (length (heap st)) (started runParams st)
            = (Returned (obj_keys (processed st)), started runParams st)) as Hkeys.
    { unfold object_keys. erewrite bind_returned; [reflexivity|].
      apply read_object_valid. simpl. now apply list_lookup_middle. }
    erewrite bind_returned by exact Hkeys.
    destruct (obj_keys (processed st)) as [|k keys] eqn:Hk.
    + cbn [length Nat.eqb]. apply bind_exited.
      erewrite bind_returned by reflexivity.
      erewrite bind_returned by reflexivity.
      reflexivity.
    + cbn [length Nat.eqb].
      erewrite bind_returned by reflexivity.
      erewrite bind_returned by exact Hkeys.
      reflexivity.
  - apply bind_thrown. exact Hrun.
Qed.

Lemma last_run_None (k : string) (args : list string) :
  last_run k args = None <-> ~ In k args.
Proof.
  induction args as [|arg rest IH]; simpl; [prop|].
  destruct (last_run k rest) as [vs|].
  - split; [discriminate|]. intros H. exfalso.
    assert (~ In k rest) as Hrest by prop.
    apply IH in Hrest. discriminate.
  - destruct (String.eqb_spec arg k) as [->|Hne].
    + split; [discriminate | prop].
    + split; [|reflexivity]. intros _ [H|H]; [contradiction|].
      now apply IH in H.
Qed.

Lemma obj_all_none {V} (o : Obj V) :
  (forall k, obj_get k o = None) -> o = [].
Proof.
  destruct o as [|[k v] o]; [reflexivity|].
  intros H. specialize (H k). simpl in H. now rewrite String.eqb_refl in H.
Qed.

(** No flag remains after the reserved bucket is removed exactly when no
    token of the input is a flag token. *)
Lemma processed_no_flags (st : State) :
  obj_keys (processed st) = []
  <-> (forall a, In a (argv st) -> isFlag a = false).
Proof.
  unfold processed. split.
  - intros Hkeys a Ha. destruct (isFlag a) eqn:Hflag; [|reflexivity].
    exfalso.
    assert (obj_get a (obj_delete "unknowns" (buckets (argv st))) = None) as Hget.
    { destruct (obj_delete "unknowns" (buckets (argv st))); [reflexivity|].
      discriminate Hkeys. }
    rewrite obj_get_delete_ne in Hget.
    + rewrite buckets_get, (isFlag_not_unknowns a Hflag), Hflag in Hget.
      now apply last_run_None in Hget.
    + intros <-. discriminate Hflag.
  - intros Hnone.
    rewrite (obj_all_none (obj_delete "unknowns" (buckets (argv st))));
      [reflexivity|].
    intros k. destruct (String.eqb_spec k "unknowns") as [->|Hne].
    + apply obj_get_delete_eq.
    + rewrite obj_get_delete_ne by congruence. rewrite buckets_get.
      apply String.eqb_neq in Hne. rewrite Hne.
      destruct (isFlag k) eqn:Hflag; [|reflexivity].
      apply last_run_None. intros Hin. apply Hnone in Hin. congruence.
Qed.

(** C7: when no flag remains after the reserved bucket is removed, [run]
    prints the no-flags hint and ends the process with exit status 1; the
    trace gains that one console call, so no handler is invoked. *)
Theorem run_without_flags (runParams : option RunParams) (st : State) :
  obj_keys (processed st) = [] ->
  run runParams st
  = (Exited 1,
     set_trace (trace st ++ [no_flags_hint (cliToolName (started runParams st))])
               (started runParams st))
  /\ (1 <> 0)%Z
  /\ cliToolName (started runParams st)
     = default "my-cli"
         (param_cliToolName (default (mkRunParams None None) runParams))
  /\ (forall argName values,
         In (Invoke argName values) (trace (snd (run runParams st))) ->
         In (Invoke argName values) (trace st)).
Proof.
  intros Hkeys.
  assert (run runParams st
          = (Exited 1,
             set_trace (trace st
                        ++ [no_flags_hint (cliToolName (started runParams st))])
                       (started runParams st))) as Hrun.
  { rewrite run_unfold, Hkeys. reflexivity. }
  split; [exact Hrun|]. split; [discriminate|]. split; [reflexivity|].
  intros argName values. rewrite Hrun. cbn [snd set_trace trace].
  rewrite in_app_iff. intros [H|[H|[]]]; [assumption | discriminate H].
Qed.

(** *** The dispatch loop *)

Lemma obj_get_In {V} (k : string) (v : V) (o : Obj V) :
  NoDup (obj_keys o) -> In (k, v) o -> obj_get k o = Some v.
Proof.
  induction o as [|[k' v'] o IH]; simpl; intros Hnd Hin; [destruct Hin|].
  inversion Hnd as [|x l Hnotin Hnd']; subst.
  destruct Hin as [Heq|Hin].
  - inversion Heq; subst. now rewrite String.eqb_refl.
  - destruct (String.eqb_spec k' k) as [->|Hne].
    + exfalso. apply Hnotin. apply list_elem_of_In.
      change k with (fst (k, v)). now apply in_map.
    + now apply IH.
Qed.

Lemma NoDup_List_filter {A} (p : A -> bool) (l : list A) :
  NoDup l -> NoDup (List.filter p l).
Proof.
  induction 1 as [|x l Hnotin Hnd IH]; simpl; [constructor|].
  destruct (p x); [|assumption].
  constructor; [|assumption].
  rewrite list_elem_of_In, filter_In. rewrite list_elem_of_In in Hnotin. prop.
Qed.

Lemma obj_delete_NoDup {V} (k : string) (o : Obj V) :
  NoDup (obj_keys o) -> NoDup (obj_keys (obj_delete k o)).
Proof.
  intros Hnd. rewrite obj_keys_delete. now apply NoDup_List_filter.
Qed.

Lemma fold_bucket_step_NoDup (args : list string) :
  forall (o : Obj (list string)) (cur : string),
    NoDup (obj_keys o) ->
    NoDup (obj_keys (fst (fold_left bucket_step args (o, cur)))).
Proof.
  induction args as [|arg rest IH]; intros o cur Hnd; [assumption|].
  cbn [fold_left]. unfold bucket_step at 2.
  destruct (isFlag arg).
  - apply IH. now apply obj_keys_set_NoDup.
  - destruct (obj_get cur o); apply IH; [now apply obj_keys_set_NoDup | assumption].
Qed.

Lemma processed_NoDup (st : State) : NoDup (obj_keys (processed st)).
Proof.
  unfold processed, buckets. apply obj_delete_NoDup, fold_bucket_step_NoDup.
  simpl. apply NoDup_singleton.
Qed.

Lemma map_Console_is_console (printed : list ConsoleEvent) :
  Forall is_console (map Console printed).
Proof.
  induction printed as [|c printed IH]; simpl; constructor; [exact I | exact IH].
Qed.

(** Awaiting a job while nothing else runs has the result of the job. *)
Lemma settle_effect (job : Job) :
  forall st : State,
    settle job st
    = let '(printed, result, h') := job_result job (host st) in
      (result, set_host h' (set_trace (trace st ++ map Console printed) st)).
Proof.
  induction job as [result|effect next IH]; intros st.
  - cbn [settle job_result map]. rewrite app_nil_r. now destruct st.
  - cbn [settle job_result]. rewrite IH. unfold run_segment.
    cbn [set_host set_trace host trace cliToolName supportedArguments heap argv
         columns].
    destruct (job_result (next (host st)) (snd (effect (host st))))
      as [[printed result] h'].
    now rewrite map_app, app_assoc.
Qed.

(** Calling a handler and awaiting it, in terms of the handler's own
    code. *)
Lemma call_handler_effect (fn : HandlerFn) (args : list string) (st : State) :
  call_handler fn args st
  = let '(printed, result, h') :=
      handler_effect (cliToolName st) (supportedArguments st) fn args (host st) in
    (result, set_host h' (set_trace (trace st ++ map Console printed) st)).
Proof.
  destruct fn as [| |code]; cbn [call_handler handler_effect].
  - rewrite outputSupportedUsage_run.
    destruct (usage_table (supportedArguments st)) as [e|table]; cbn [map].
    + rewrite app_nil_r. now destruct st.
    + now destruct st.
  - erewrite bind_returned by reflexivity. apply settle_effect.
  - apply settle_effect.
Qed.

(** A handler leaves the store and the registry alone, and adds only
    console calls to the trace. *)
Lemma call_handler_frame (fn : HandlerFn) (args : list string)
      (st st' : State) (res : Outcome unit) :
  call_handler fn args st = (res, st') ->
  heap st' = heap st
  /\ supportedArguments st' = supportedArguments st
  /\ exists body, trace st' = trace st ++ body /\ Forall is_console body.
Proof.
  rewrite call_handler_effect.
  destruct (handler_effect _ _ fn args (host st)) as [[printed result] h'].
  intros H. inversion H; subst; clear H. repeat split.
  exists (map Console printed). split; [reflexivity|].
  apply map_Console_is_console.
Qed.

(** One turn of the loop, for a key the registry and the object have. *)
Lemma dispatch_run (r : loc) (argName : string) (values : list string)
      (def : FlagDef) (o : Obj (list string)) (st : State) :
  obj_get argName (supportedArguments st) = Some def ->
  heap st !! r = Some o ->
  obj_get argName o = Some values ->
  dispatch r argName st
  = match call_handler (f def) values
            (set_trace (trace st ++ [Invoke argName values]) st) with
    | (Returned _, st1) =>
        (Returned tt, set_trace (trace st1 ++ [Fulfilled argName]) st1)
    | (Thrown e, st1) => (Thrown e, st1)
    | (Exited c, st1) => (Exited c, st1)
    end.
Proof.
  intros Hdef Hr Hvalues. unfold dispatch.
  erewrite bind_returned by reflexivity. rewrite Hdef.
  erewrite bind_returned by (apply read_object_valid; eassumption).
  rewrite Hvalues.
  erewrite bind_returned by reflexivity.
  unfold bind at 1.
  destruct (call_handler (f def) values _) as [[[]|e|c] st1]; reflexivity.
Qed.

(** One turn of the dispatch loop, case by case. *)
Lemma dispatch_cases (r : loc) (argName : string) (st : State) :
  dispatch r argName st
  = match obj_get argName (supportedArguments st) with
    | None =>
        (Thrown (JsErr "TypeError" "Cannot read properties of undefined"), st)
    | Some def =>
        match heap st !! r with
        | None =>
            (Thrown (JsErr "TypeError" "Cannot read properties of undefined"), st)
        | Some o =>
            match obj_get argName o with
            | None => (Thrown (JsErr "TypeError" "undefined is not iterable"), st)
            | Some values =>
                match call_handler (f def) values
                        (set_trace (trace st ++ [Invoke argName values]) st) with
                | (Returned _, st1) =>
                    (Returned tt, set_trace (trace st1 ++ [Fulfilled argName]) st1)
                | (Thrown e, st1) => (Thrown e, st1)
                | (Exited c, st1) => (Exited c, st1)
                end
            end
        end
    end.
Proof.
  unfold dispatch. erewrite bind_returned by reflexivity.
  destruct (obj_get argName (supportedArguments st)) as [def|]; [|reflexivity].
  destruct (heap st !! r) as [o|] eqn:Hr.
  - erewrite bind_returned by (apply read_object_valid; eassumption).
    destruct (obj_get argName o) as [values|]; [|reflexivity].
    erewrite bind_returned by reflexivity. unfold bind at 1.
    now destruct (call_handler (f def) values _) as [[[]|e|c] st1].
  - apply bind_thrown. unfold read_object. now rewrite Hr.
Qed.

(** The loop over the entries of the object behind [r]: it is the
    sequential dispatch of the entries. *)
Lemma dispatch_loop (r : loc) (o : Obj (list string)) (registry : Obj FlagDef)
      (entries : Obj (list string)) :
  forall st : State,
    heap st !! r = Some o ->
    supportedArguments st = registry ->
    (forall k vs, In (k, vs) entries -> obj_get k o = Some vs) ->
    (forall k vs, In (k, vs) entries -> obj_get k registry <> None) ->
    exists (res : Outcome unit) (st' : State) (tr : list Event),
      forEach (obj_keys entries) (dispatch r) st = (res, st')
      /\ sequentially (cliToolName st) registry entries (host st)
         = (tr, res, host st')
      /\ st' = set_host (host st') (set_trace (trace st ++ tr) st)
      /\ trace st' = trace st ++ tr
      /\ SequentialTrace entries tr res.
Proof.
  induction entries as [|[k vs] entries IH]; intros st Hr Hreg Hvalues Hdefs.
  - exists (Returned tt), st, []. rewrite app_nil_r. repeat split.
    + now destruct st.
    + constructor.
  - subst registry.
    destruct (obj_get k (supportedArguments st)) as [def|] eqn:Hdef;
      [|exfalso; apply (Hdefs k vs); [now left | assumption]].
    pose proof (dispatch_run r k vs def o st Hdef Hr
                  (Hvalues k vs (or_introl eq_refl))) as Hturn.
    rewrite call_handler_effect in Hturn.
    cbn [set_trace cliToolName supportedArguments host trace] in Hturn.
    cbn [obj_keys map fst forEach sequentially]. rewrite Hdef.
    destruct (handler_effect (cliToolName st) (supportedArguments st) (f def) vs
                (host st)) as [[printed result] h1].
    destruct result as [[]|e|c].
    + match type of Hturn with _ = (_, ?s) => set (st1 := s) in Hturn end.
      destruct (IH st1) as [res [st' [tr [Hloop [Hseq [Hst' [Htr Htrace]]]]]]].
      * exact Hr.
      * reflexivity.
      * intros k' vs' Hin. apply Hvalues. now right.
      * intros k' vs' Hin. apply (Hdefs k' vs'). now right.
      * change (cliToolName st1) with (cliToolName st) in Hseq.
        change (supportedArguments st1) with (supportedArguments st) in Hseq.
        change (host st1) with h1 in Hseq.
        change (trace st1)
          with (((trace st ++ [Invoke k vs]) ++ map Console printed)
                ++ [Fulfilled k]) in Htr, Hst'.
        exists res, st', (Invoke k vs :: map Console printed ++ Fulfilled k :: tr).
        assert (trace st ++ Invoke k vs :: map Console printed ++ Fulfilled k :: tr
                = (((trace st ++ [Invoke k vs]) ++ map Console printed)
                   ++ [Fulfilled k]) ++ tr) as Happ
          by (rewrite <- !app_assoc; reflexivity).
        split; [|split; [|split; [|split]]].
        -- erewrite bind_returned by exact Hturn. exact Hloop.
        -- now rewrite Hseq.
        -- rewrite Happ. rewrite Hst' at 1. reflexivity.
        -- now rewrite Happ.
        -- constructor; [apply map_Console_is_console | assumption].
    + eexists (Thrown e), _, (Invoke k vs :: map Console printed).
      split; [|split; [|split; [|split]]].
      * apply bind_thrown. exact Hturn.
      * reflexivity.
      * cbn [set_host set_trace host trace cliToolName supportedArguments heap
             argv columns]. now rewrite <- app_assoc.
      * cbn [set_host set_trace trace]. now rewrite <- app_assoc.
      * apply SequentialTrace_abort; [apply map_Console_is_console | discriminate].
    + eexists (Exited c), _, (Invoke k vs :: map Console printed).
      split; [|split; [|split; [|split]]].
      * apply bind_exited. exact Hturn.
      * reflexivity.
      * cbn [set_host set_trace host trace cliToolName supportedArguments heap
             argv columns]. now rewrite <- app_assoc.
      * cbn [set_host set_trace trace]. now rewrite <- app_assoc.
      * apply SequentialTrace_abort; [apply map_Console_is_console | discriminate].
Qed.

(** *** The dispatch loop, one step at a time *)

Lemma steps_app (r : loc) (c c1 c2 : Status * State) (ls ls' : list Label) :
  steps r c ls c1 -> steps r c1 ls' c2 -> steps r c (ls ++ ls') c2.
Proof.
  induction 1 as [c|c l c1 ls c3 Hstep Hsteps IH]; intros Hmore; [exact Hmore|].
  simpl. eapply steps_next; [exact Hstep | now apply IH].
Qed.

Lemma begin_job_settle (job : Job) (st : State) :
  settle (fst (begin_job job st)) (snd (begin_job job st)) = settle job st.
Proof. now destruct job. Qed.

(** Calling a handler and awaiting it while nothing else runs: the part
    inside the call, then the rest of the job. *)
Lemma start_settle (fn : HandlerFn) (values : list string) (st : State) :
  settle (fst (start fn values st)) (snd (start fn values st))
  = call_handler fn values st.
Proof.
  destruct fn as [| |code]; cbn [start call_handler].
  - cbn [fst snd settle]. now destruct (outputSupportedUsage st).
  - rewrite begin_job_settle. erewrite bind_returned by reflexivity. reflexivity.
  - apply begin_job_settle.
Qed.

Lemma start_frame (fn : HandlerFn) (values : list string) (st : State) :
  heap (snd (start fn values st)) = heap st
  /\ supportedArguments (snd (start fn values st)) = supportedArguments st.
Proof.
  destruct fn as [| |code]; cbn [start].
  - cbn [snd]. rewrite outputSupportedUsage_run.
    now destruct (usage_table (supportedArguments st)).
  - now destruct (version_f (cliToolName st) values).
  - now destruct (code values).
Qed.

(** The steps of a job that is awaited while nothing else runs. *)
Lemma settle_steps (r : loc) (argName : string) (keys : list string) (job : Job) :
  forall st : State,
    exists ls : list Label,
      steps r (Awaiting argName job keys, st) ls
            (Awaiting argName (Settled (fst (settle job st))) keys,
             snd (settle job st))
      /\ Forall undisturbed ls.
Proof.
  induction job as [result|effect next IH]; intros st.
  - exists []. split; constructor.
  - destruct (IH (host st) (run_segment effect st)) as [ls [Hsteps Hquiet]].
    exists (Ran argName (fst (effect (host st))) :: ls). split.
    + eapply steps_next; [apply step_segment | exact Hsteps].
    + constructor; [exact I | exact Hquiet].
Qed.

(** The loop of [run], as [forEach] gives it, is the run of the steps in
    which no other callback takes a turn. *)
Lemma loop_steps (r : loc) (o : Obj (list string)) (keys : list string) :
  forall st : State,
    heap st !! r = Some o ->
    exists ls : list Label,
      steps r (Looping keys, st) ls
            (Ended (fst (forEach keys (dispatch r) st)),
             snd (forEach keys (dispatch r) st))
      /\ Forall undisturbed ls.
Proof.
  induction keys as [|k keys IH]; intros st Hr.
  - exists [Completed]. split.
    + eapply steps_next; [apply step_complete | apply steps_done].
    + constructor; [exact I | constructor].
  - cbn [forEach].
    assert ((dispatch r k ;;; forEach keys (dispatch r)) st
            = match dispatch r k st with
              | (Returned _, st') => forEach keys (dispatch r) st'
              | (Thrown e, st') => (Thrown e, st')
              | (Exited c, st') => (Exited c, st')
              end) as -> by reflexivity.
    rewrite dispatch_cases, Hr.
    destruct (obj_get k (supportedArguments st)) as [def|] eqn:Hdef.
    2:{ eexists. split.
        - eapply steps_next; [now apply step_no_handler | apply steps_done].
        - constructor; [exact I | constructor]. }
    destruct (obj_get k o) as [values|] eqn:Hvalues.
    2:{ eexists. split.
        - eapply steps_next; [eapply step_no_values; eassumption | apply steps_done].
        - constructor; [exact I | constructor]. }
    set (st0 := set_trace (trace st ++ [Invoke k values]) st).
    rewrite <- (start_settle (f def) values st0).
    destruct (start (f def) values st0) as [job st1] eqn:Hstart. cbn [fst snd].
    assert (step r (Looping (k :: keys), st) (Called k values)
                 (Awaiting k job keys, st1)) as Hcall
      by (eapply step_call; eassumption).
    destruct (settle_steps r k keys job st1) as [ls [Hsteps Hquiet]].
    assert (heap (snd (settle job st1)) = heap st) as Hheap.
    { pose proof (start_settle (f def) values st0) as Hcalled.
      rewrite Hstart in Hcalled. cbn [fst snd] in Hcalled.
      destruct (settle job st1) as [res st2] eqn:Hsettle.
      symmetry in Hcalled.
      now destruct (call_handler_frame _ _ _ _ _ Hcalled) as [Hh _]. }
    destruct (settle job st1) as [[[]|e|c] st2]; cbn [fst snd] in *.
    + destruct (IH (set_trace (trace st2 ++ [Fulfilled k]) st2))
        as [ls' [Hsteps' Hquiet']].
      { cbn [set_trace heap]. now rewrite Hheap. }
      exists (Called k values :: ls ++ Resumed k :: ls'). split.
      * eapply steps_next; [exact Hcall|].
        eapply steps_app; [exact Hsteps|].
        eapply steps_next; [apply step_resume | exact Hsteps'].
      * constructor; [exact I|]. apply Forall_app. split; [exact Hquiet|].
        constructor; [exact I | exact Hquiet'].
    + exists (Called k values :: ls ++ [Raised k (Thrown e)]). split.
      * eapply steps_next; [exact Hcall|].
        eapply steps_app; [exact Hsteps|].
        eapply steps_next; [now apply step_raise | apply steps_done].
      * constructor; [exact I|]. apply Forall_app. split; [exact Hquiet|].
        constructor; [exact I | constructor].
    + exists (Called k values :: ls ++ [Raised k (Exited c)]). split.
      * eapply steps_next; [exact Hcall|].
        eapply steps_app; [exact Hsteps|].
        eapply steps_next; [now apply step_raise | apply steps_done].
      * constructor; [exact I|]. apply Forall_app. split; [exact Hquiet|].
        constructor; [exact I | constructor].
Qed.

(** Whatever the other callbacks of the process do, and whenever they
    run, the labels of the steps from any point of the loop are the rest
    of an orderly dispatch. *)
Lemma steps_in_order (r : loc) (o : Obj (list string)) (registry : Obj FlagDef) :
  forall (c : Status * State) (ls : list Label) (c' : Status * State),
    steps r c ls c' ->
    heap (snd c) !! r = Some o ->
    supportedArguments (snd c) = registry ->
    match fst c with
    | Looping keys =>
        forall entries : Obj (list string),
          keys = obj_keys entries ->
          (forall k vs, In (k, vs) entries -> obj_get k o = Some vs) ->
          (forall k vs, In (k, vs) entries -> obj_get k registry <> None) ->
          InOrder entries ls (result_of (fst c'))
    | Awaiting argName job keys =>
        forall entries : Obj (list string),
          keys = obj_keys entries ->
          (forall k vs, In (k, vs) entries -> obj_get k o = Some vs) ->
          (forall k vs, In (k, vs) entries -> obj_get k registry <> None) ->
          InTurn argName entries ls (result_of (fst c'))
    | Ended _ => ls = [] /\ c' = c
    end.
Proof.
  induction 1 as [[status st]|c l c1 ls c2 Hstep Hsteps IH]; intros Hr Hreg.
  - destruct status; cbn [fst]; intros; try constructor; reflexivity.
  - destruct Hstep
      as [argName keys st def o' values job st1 Hdef Hr' Hvalues Hstart
         |argName keys st Hdef
         |argName keys st def o' Hdef Hr' Hvalues
         |argName effect next keys st
         |argName keys st
         |argName raised keys st Hraised
         |st
         |argName job keys st printed h];
      cbn [fst snd] in *.
    + intros [|[k vs] entries] Hkeys Hentries Hdefs; [discriminate|].
      injection Hkeys as <- ->.
      rewrite Hr in Hr'. injection Hr' as <-.
      rewrite (Hentries argName vs (or_introl eq_refl)) in Hvalues.
      injection Hvalues as <-.
      constructor. apply IH.
      * replace st1 with (snd (start (f def) vs
                                 (set_trace (trace st ++ [Invoke argName vs]) st)))
          by now rewrite Hstart.
        now rewrite (proj1 (start_frame _ _ _)).
      * replace st1 with (snd (start (f def) vs
                                 (set_trace (trace st ++ [Invoke argName vs]) st)))
          by now rewrite Hstart.
        now rewrite (proj2 (start_frame _ _ _)).
      * reflexivity.
      * intros k' vs' Hin. apply Hentries. now right.
      * intros k' vs' Hin. apply (Hdefs k' vs'). now right.
    + intros [|[k vs] entries] Hkeys Hentries Hdefs; [discriminate|].
      injection Hkeys as <- ->. exfalso.
      apply (Hdefs argName vs); [now left | congruence].
    + intros [|[k vs] entries] Hkeys Hentries Hdefs; [discriminate|].
      injection Hkeys as <- ->. exfalso.
      rewrite Hr in Hr'. injection Hr' as <-.
      rewrite (Hentries argName vs (or_introl eq_refl)) in Hvalues. discriminate.
    + intros entries Hkeys Hentries Hdefs. constructor.
      now apply IH.
    + intros entries Hkeys Hentries Hdefs. constructor.
      now apply IH.
    + intros entries Hkeys Hentries Hdefs.
      destruct (IH Hr Hreg) as [-> ->]. now constructor.
    + intros [|[k vs] entries] Hkeys Hentries Hdefs; [|discriminate].
      destruct (IH Hr Hreg) as [-> ->]. constructor.
    + intros entries Hkeys Hentries Hdefs. constructor.
      now apply IH.
Qed.

(** C4: when at least one flag was given and every flag is a key of the
    merged registry, [run] is the sequential dispatch of the entries of the
    processed object in their order: each handler is called with the
    values of its bucket, in the host that the handler before it has left
    when its awaited result was fulfilled, and the first handler whose
    result is not fulfilled ends [run] with that result, the handlers of
    the entries after it not being called.  In the trace each invocation
    is followed by the console calls of its handler and then by its
    fulfilment, before the next invocation; nothing follows a handler
    that raised.  Step by step, with the jobs of the handlers resumed one
    segment at a time and other callbacks of the process running at any
    moment at which [run] is suspended, the steps are those of an orderly
    dispatch whatever those callbacks do: a handler is called only when
    [run] has been resumed from the [await] on the one before it, with a
    fulfilled result (or, for the first, at the start of the loop); a
    result that is not fulfilled is the result of [run], and no step
    follows it; [run] returns only after the last handler.  The result and
    the final state that the monad gives for [run] are those of the steps
    in which no other callback takes a turn. *)
Theorem run_dispatches_in_order (runParams : option RunParams) (st : State) :
  obj_keys (processed st) <> [] ->
  (forall k, In k (obj_keys (processed st)) ->
             In k (obj_keys (supportedArguments (started runParams st)))) ->
  (exists (tr : list Event) (res : Outcome unit) (h : Host),
      sequentially (cliToolName (started runParams st))
                   (supportedArguments (started runParams st))
                   (processed st) (host st)
      = (tr, res, h)
      /\ run runParams st
         = (res, set_host h (set_trace (trace st ++ tr) (started runParams st)))
      /\ SequentialTrace (processed st) tr res)
  /\ (forall (ls : list Label) (c : Status * State),
         steps (length (heap st))
               (Looping (obj_keys (processed st)), started runParams st) ls c ->
         InOrder (processed st) ls (result_of (fst c)))
  /\ (exists ls : list Label,
         steps (length (heap st))
               (Looping (obj_keys (processed st)), started runParams st) ls
               (Ended (fst (run runParams st)), snd (run runParams st))
         /\ Forall undisturbed ls).
Proof.
  intros Hsome Hall.
  assert (heap (started runParams st) !! length (heap st) = Some (processed st))
    as Hr by (unfold started; cbn [set_heap heap]; now apply list_lookup_middle).
  assert (forall k vs, In (k, vs) (processed st) ->
                       obj_get k (processed st) = Some vs) as Hvalues
    by (intros k vs Hin; apply obj_get_In; [apply processed_NoDup | assumption]).
  assert (forall k vs, In (k, vs) (processed st) ->
                       obj_get k (supportedArguments (started runParams st)) <> None)
    as Hdefs.
  { intros k vs Hin Hnone. apply obj_get_None in Hnone. apply Hnone, Hall.
    change k with (fst (k, vs)). now apply in_map. }
  assert (run runParams st
          = forEach (obj_keys (processed st)) (dispatch (length (heap st)))
                    (started runParams st)) as Hrun.
  { rewrite run_unfold. apply unrecognized_nil in Hall. rewrite Hall.
    now destruct (obj_keys (processed st)) as [|k keys] eqn:Hkeys. }
  split; [|split].
  - destruct (dispatch_loop (length (heap st)) (processed st)
                (supportedArguments (started runParams st)) (processed st)
                (started runParams st) Hr eq_refl Hvalues Hdefs)
      as [res [st' [tr [Hloop [Hseq [Hst' [_ Htrace]]]]]]].
    exists tr, res, (host st'). split; [exact Hseq|]. split; [|exact Htrace].
    rewrite Hrun, Hloop. now rewrite Hst' at 1.
  - intros ls c Hsteps.
    exact (steps_in_order (length (heap st)) (processed st)
             (supportedArguments (started runParams st)) _ _ _ Hsteps Hr eq_refl
             (processed st) eq_refl Hvalues Hdefs).
  - rewrite Hrun. exact (loop_steps _ _ _ _ Hr).
Qed.

(** *** [parseInputArguments], one token at a time *)

Lemma last_cons_default {A} (x : A) (l : list A) (d d' : A) :
  List.last (x :: l) d = List.last (x :: l) d'.
Proof.
  revert x. induction l as [|y l IH]; intros x; [reflexivity|].
  change (List.last (y :: l) d = List.last (y :: l) d'). apply IH.
Qed.

Lemma fold_bucket_step_current (args : list string) :
  forall (o : Obj (list string)) (cur : string),
    obj_get cur o <> None ->
    obj_get (snd (fold_left bucket_step args (o, cur)))
            (fst (fold_left bucket_step args (o, cur))) <> None
    /\ snd (fold_left bucket_step args (o, cur))
       = List.last (List.filter isFlag args) cur.
Proof.
  induction args as [|arg rest IH]; intros o cur Hcur; [now split|].
  cbn [fold_left List.filter].
  assert (bucket_step (o, cur) arg
          = if isFlag arg then (obj_set arg [] o, arg)
            else match obj_get cur o with
                 | Some vs => (obj_set cur (vs ++ [arg]) o, cur)
                 | None => (o, cur)
                 end) as -> by reflexivity.
  destruct (isFlag arg) eqn:Harg.
  - destruct (IH (obj_set arg [] o) arg) as [Hsome Hlast].
    + now rewrite obj_get_set_eq.
    + split; [exact Hsome|]. rewrite Hlast.
      destruct (List.filter isFlag rest) as [|x l]; [reflexivity|].
      change (List.last (x :: l) arg = List.last (x :: l) cur).
      apply last_cons_default.
  - destruct (obj_get cur o) as [vs|] eqn:Hget; [|congruence].
    apply IH. now rewrite obj_get_set_eq.
Qed.

(** The current bucket is the last flag token seen, or the reserved
    bucket, and it is always present. *)
Lemma current_bucket_last (args : list string) :
  current_bucket args = List.last (List.filter isFlag args) "unknowns"
  /\ obj_get (current_bucket args) (buckets args) <> None.
Proof.
  unfold current_bucket, buckets.
  destruct (fold_bucket_step_current args [("unknowns", [])] "unknowns")
    as [Hsome Hlast]; [discriminate|].
  now split.
Qed.

(** The effect of one more token on the object. *)
Lemma buckets_snoc (before : list string) (arg : string) :
  (isFlag arg = true
   /\ buckets (before ++ [arg]) = obj_set arg [] (buckets before)
   /\ current_bucket (before ++ [arg]) = arg)
  \/ (isFlag arg = false
      /\ exists vs : list string,
        obj_get (current_bucket before) (buckets before) = Some vs
        /\ buckets (before ++ [arg])
           = obj_set (current_bucket before) (vs ++ [arg]) (buckets before)
        /\ current_bucket (before ++ [arg]) = current_bucket before).
Proof.
  destruct (current_bucket_last before) as [_ Hsome].
  unfold buckets, current_bucket in *. rewrite !fold_left_app.
  destruct (fold_left bucket_step before ([("unknowns", [])], "unknowns"))
    as [o cur].
  cbn [fold_left fst snd bucket_step] in *.
  destruct (isFlag arg).
  - left. now repeat split.
  - right. split; [reflexivity|].
    destruct (obj_get cur o) as [vs|]; [|congruence].
    exists vs. now repeat split.
Qed.

(** *** [parseInputArguments], the statement *)

(** C1 (amended): [parseInputArguments] returns a fresh object and leaves
    the rest of the state alone.  Token by token, a token whose first
    character is '-' becomes the current bucket and its bucket is set to
    empty, whether or not it is already present; any other token is
    appended to the values of the current bucket.  In the object returned,
    the reserved bucket holds the tokens that precede the first flag token;
    the bucket of a flag token holds the tokens between the last
    occurrence of that flag and the next flag token (the values of its
    earlier occurrences are not kept); no other key exists.  When no flag
    token is repeated, the buckets taken in order give back the input
    token for token, and the object is the one obtained by registering a
    flag only when it is not yet present. *)
Theorem parseInputArguments_buckets (st : State) :
  exists parsedArgs : Obj (list string),
    parseInputArguments st
    = (Returned (length (heap st)), set_heap (heap st ++ [parsedArgs]) st)
    /\ parsedArgs = buckets (argv st)
    /\ (forall (before after : list string) (arg : string),
           argv st = before ++ arg :: after ->
           (isFlag arg = true
            /\ buckets (before ++ [arg]) = obj_set arg [] (buckets before)
            /\ current_bucket (before ++ [arg]) = arg)
           \/ (isFlag arg = false
               /\ exists vs : list string,
                 obj_get (current_bucket before) (buckets before) = Some vs
                 /\ buckets (before ++ [arg])
                    = obj_set (current_bucket before) (vs ++ [arg])
                              (buckets before)
                 /\ current_bucket (before ++ [arg]) = current_bucket before))
    /\ (forall k : string,
           obj_get k parsedArgs
           = if String.eqb k "unknowns" then Some (leading (argv st))
             else if isFlag k then last_run k (argv st)
             else None)
    /\ (NoDup (List.filter isFlag (argv st)) ->
        tokens_of parsedArgs = argv st
        /\ parsedArgs = spec_buckets (argv st)).
Proof.
  exists (buckets (argv st)). split; [|split; [|split; [|split]]].
  - apply parseInputArguments_run.
  - reflexivity.
  - intros before after arg _. apply buckets_snoc.
  - intros k. apply buckets_get.
  - apply buckets_distinct_flags.
Qed.

(** ** Further properties *)

(** *** The keys of the parsed object *)

Lemma filter_filter_andb {A} (p q : A -> bool) (l : list A) :
  List.filter p (List.filter q l) = List.filter (fun x => q x && p x) l.
Proof.
  induction l as [|x l IH]; simpl; [reflexivity|].
  destruct (q x); simpl; [destruct (p x)|]; now rewrite IH.
Qed.

Lemma filter_implied {A} (p q : A -> bool) (l : list A) :
  (forall x, p x = true -> q x = true) ->
  List.filter p (List.filter q l) = List.filter p l.
Proof.
  intros Himp. rewrite filter_filter_andb. apply List.filter_ext.
  intros x. destruct (p x) eqn:Hp; [now rewrite (Himp x Hp)|].
  now destruct (q x).
Qed.

Lemma uniq_In (l : list string) (x : string) : In x (uniq l) <-> In x l.
Proof.
  induction l as [|y l IH]; simpl; [reflexivity|].
  rewrite filter_In, IH, negb_true_iff, String.eqb_neq.
  destruct (String.eqb_spec y x) as [->|Hne].
  - split; intros _; now left.
  - split; intros [H|H]; try (now left); right; [apply H | split; congruence].
Qed.

Lemma uniq_NoDup (l : list string) : NoDup (uniq l).
Proof.
  induction l as [|y l IH]; simpl; constructor.
  - rewrite list_elem_of_In, filter_In, String.eqb_refl. intros [_ H].
    discriminate H.
  - now apply NoDup_List_filter.
Qed.

Lemma includes_app (xs ys : list string) (x : string) :
  includes (xs ++ ys) x = includes xs x || includes ys x.
Proof. unfold includes. apply existsb_app. Qed.

(** The keys after the scan of [args] from the object [o]: the keys of
    [o], then the flag tokens of [args] that are new, each once. *)
Lemma fold_bucket_step_keys (args : list string) :
  forall (o : Obj (list string)) (cur : string),
    obj_get cur o <> None ->
    obj_keys (fst (fold_left bucket_step args (o, cur)))
    = obj_keys o
      ++ List.filter (fun k => negb (includes (obj_keys o) k))
                     (uniq (List.filter isFlag args)).
Proof.
  induction args as [|arg rest IH]; intros o cur Hcur.
  - simpl. now rewrite app_nil_r.
  - cbn [fold_left List.filter].
    assert (bucket_step (o, cur) arg
            = if isFlag arg then (obj_set arg [] o, arg)
              else match obj_get cur o with
                   | Some vs => (obj_set cur (vs ++ [arg]) o, cur)
                   | None => (o, cur)
                   end) as -> by reflexivity.
    destruct (isFlag arg) eqn:Harg.
    + rewrite IH by now rewrite obj_get_set_eq.
      cbn [uniq List.filter].
      destruct (obj_get arg o) as [vs|] eqn:Hget.
      * rewrite obj_keys_set_present by congruence.
        assert (includes (obj_keys o) arg = true) as Hin.
        { apply includes_In. destruct (in_dec string_dec arg (obj_keys o))
            as [Hin|Hnot]; [assumption|].
          apply obj_get_None in Hnot. congruence. }
        rewrite Hin. cbn [negb]. f_equal.
        symmetry. apply filter_implied.
        intros x Hx. apply negb_true_iff, String.eqb_neq. intros ->.
        now rewrite Hin in Hx.
      * rewrite obj_set_absent by assumption.
        assert (includes (obj_keys o) arg = false) as Hin.
        { destruct (includes (obj_keys o) arg) eqn:E; [|reflexivity].
          apply includes_In in E. now apply obj_get_None in Hget. }
        rewrite Hin. cbn [negb]. rewrite obj_keys_app, <- app_assoc.
        f_equal. cbn [obj_keys map fst app]. f_equal.
        rewrite filter_filter_andb. apply List.filter_ext.
        intros x. rewrite includes_app. unfold includes at 2.
        cbn [existsb]. rewrite orb_false_r, negb_orb. apply andb_comm.
    + destruct (obj_get cur o) as [vs|] eqn:Hget; [|congruence].
      rewrite IH by now rewrite obj_get_set_eq.
      now rewrite obj_keys_set_present by congruence.
Qed.

Lemma filter_all {A} (p : A -> bool) (l : list A) :
  (forall x, In x l -> p x = true) -> List.filter p l = l.
Proof.
  induction l as [|x l IH]; intros Hall; simpl; [reflexivity|].
  rewrite (Hall x) by now left. f_equal. apply IH.
  intros y Hy. apply Hall. now right.
Qed.

Lemma flag_of_uniq (args : list string) (k : string) :
  In k (uniq (List.filter isFlag args)) -> isFlag k = true /\ In k args.
Proof.
  intros Hin. apply uniq_In, filter_In in Hin. destruct Hin. now split.
Qed.

Lemma buckets_keys (args : list string) :
  obj_keys (buckets args) = "unknowns" :: uniq (List.filter isFlag args).
Proof.
  unfold buckets. rewrite fold_bucket_step_keys by discriminate.
  cbn [obj_keys map fst app]. f_equal. apply filter_all.
  intros k Hk. apply flag_of_uniq in Hk as [Hflag _].
  unfold includes. cbn [existsb]. rewrite orb_false_r.
  now rewrite (isFlag_not_unknowns k Hflag).
Qed.

Lemma processed_keys (st : State) :
  obj_keys (processed st) = uniq (List.filter isFlag (argv st)).
Proof.
  unfold processed. rewrite obj_keys_delete, buckets_keys.
  cbn [List.filter]. rewrite String.eqb_refl. cbn [negb].
  apply filter_all. intros k Hk. apply flag_of_uniq in Hk as [Hflag _].
  now rewrite (isFlag_not_unknowns k Hflag).
Qed.


(** X1: the keys of the object [parseInputArguments] returns are the
    reserved key followed by the distinct flag tokens of the input, each
    once, in the order of their first occurrence; so a key is the reserved
    key or a flag token of the input, and nothing else. *)
Theorem parseInputArguments_keys (st : State) :
  exists parsedArgs : Obj (list string),
    parseInputArguments st
    = (Returned (length (heap st)), set_heap (heap st ++ [parsedArgs]) st)
    /\ obj_keys parsedArgs = "unknowns" :: uniq (List.filter isFlag (argv st))
    /\ NoDup (obj_keys parsedArgs)
    /\ (forall k : string,
           In k (obj_keys parsedArgs)
           <-> k = "unknowns" \/ (isFlag k = true /\ In k (argv st))).
Proof.
  exists (buckets (argv st)). split; [apply parseInputArguments_run|].
  split; [apply buckets_keys|]. split.
  - unfold buckets. apply fold_bucket_step_NoDup. simpl. apply NoDup_singleton.
  - intros k. rewrite buckets_keys. cbn [In].
    rewrite uniq_In, filter_In. split.
    + intros [<-|[Hin Hflag]]; [now left | right; now split].
    + intros [->|[Hflag Hin]]; [now left | right; now split].
Qed.

(** *** The values of the parsed object *)

Lemma leading_split (args : list string) :
  exists post : list string,
    args = leading args ++ post
    /\ Forall (fun v => isFlag v = false) (leading args)
    /\ match post with
       | [] => True
       | next :: _ => isFlag next = true
       end.
Proof.
  induction args as [|arg rest IH]; simpl.
  - exists []. repeat split. constructor.
  - destruct (isFlag arg) eqn:Harg.
    + exists (arg :: rest). repeat split; [constructor | assumption].
    + destruct IH as [post [Heq [Hall Hpost]]]. exists post.
      split; [simpl; now rewrite <- Heq|]. split; [|assumption].
      now constructor.
Qed.

Lemma last_run_split (k : string) (args vs : list string) :
  last_run k args = Some vs ->
  exists pre post : list string,
    args = pre ++ k :: vs ++ post
    /\ ~ In k (vs ++ post)
    /\ Forall (fun v => isFlag v = false) vs
    /\ match post with
       | [] => True
       | next :: _ => isFlag next = true
       end.
Proof.
  revert vs. induction args as [|arg rest IH]; intros vs; simpl; [discriminate|].
  destruct (last_run k rest) as [vs'|] eqn:Hrest.
  - intros H. inversion H; subst vs'; clear H.
    destruct (IH vs eq_refl) as [pre [post [Heq Hrem]]].
    exists (arg :: pre), post. split; [simpl; now rewrite <- Heq | exact Hrem].
  - destruct (String.eqb_spec arg k) as [->|Hne]; [|discriminate].
    intros H. inversion H; subst vs; clear H.
    destruct (leading_split rest) as [post [Heq [Hall Hpost]]].
    exists [], post. split; [simpl; now rewrite <- Heq|].
    split; [|now split].
    rewrite <- Heq. now apply last_run_None.
Qed.

(** X2: in the object [parseInputArguments] returns, the values of a
    bucket are never flag tokens (a token such as "-5" always opens a
    bucket of its own), and the values of a flag's bucket are the run of
    tokens that directly follows the last occurrence of that flag in the
    input, up to the next flag token or the end. *)
Theorem parseInputArguments_values (st : State) :
  exists parsedArgs : Obj (list string),
    parseInputArguments st
    = (Returned (length (heap st)), set_heap (heap st ++ [parsedArgs]) st)
    /\ (forall (k : string) (vs : list string),
           obj_get k parsedArgs = Some vs ->
           Forall (fun v => isFlag v = false) vs)
    /\ (forall (k : string) (vs : list string),
           k <> "unknowns" ->
           obj_get k parsedArgs = Some vs ->
           exists pre post : list string,
             argv st = pre ++ k :: vs ++ post
             /\ ~ In k post
             /\ match post with
                | [] => True
                | next :: _ => isFlag next = true
                end).
Proof.
  exists (buckets (argv st)). split; [apply parseInputArguments_run|]. split.
  - intros k vs. rewrite buckets_get.
    destruct (String.eqb k "unknowns").
    + intros H. inversion H; subst vs.
      destruct (leading_split (argv st)) as [post [_ [Hall _]]]. exact Hall.
    + destruct (isFlag k); [|discriminate].
      intros H. apply last_run_split in H as [pre [post [_ [_ [Hall _]]]]].
      exact Hall.
  - intros k vs Hne. rewrite buckets_get.
    apply String.eqb_neq in Hne. rewrite Hne.
    destruct (isFlag k); [|discriminate].
    intros H. apply last_run_split in H as [pre [post [Heq [Hnot [_ Hpost]]]]].
    exists pre, post. split; [exact Heq|]. split; [|exact Hpost].
    intros Hin. apply Hnot. apply in_or_app. now right.
Qed.


(** *** What [run] changes *)

Lemma call_handler_state (fn : HandlerFn) (args : list string)
      (st st' : State) (res : Outcome unit) :
  call_handler fn args st = (res, st') ->
  st' = set_host (host st') (set_trace (trace st') st).
Proof.
  rewrite call_handler_effect.
  destruct (handler_effect _ _ fn args (host st)) as [[printed result] h'].
  intros H. inversion H; subst; clear H. now destruct st.
Qed.

(** One turn of the dispatch loop changes the trace and the host only,
    and the trace only by adding to it. *)
Lemma dispatch_state (r : loc) (argName : string) (st st' : State)
      (res : Outcome unit) :
  dispatch r argName st = (res, st') ->
  st' = set_host (host st') (set_trace (trace st') st)
  /\ exists tr, trace st' = trace st ++ tr.
Proof.
  unfold dispatch. erewrite bind_returned by reflexivity.
  destruct (obj_get argName (supportedArguments st)) as [def|].
  2:{ intros H. inversion H; subst. split; [now destruct st'|].
      exists []. now rewrite app_nil_r. }
  unfold bind at 1, read_object.
  destruct (heap st !! r) as [o|].
  2:{ intros H. inversion H; subst. split; [now destruct st'|].
      exists []. now rewrite app_nil_r. }
  destruct (obj_get argName o) as [values|].
  2:{ intros H. inversion H; subst. split; [now destruct st'|].
      exists []. now rewrite app_nil_r. }
  erewrite bind_returned by reflexivity. unfold bind at 1.
  destruct (call_handler (f def) values
              (set_trace (trace st ++ [Invoke argName values]) st))
    as [[[]|e|c] st1] eqn:Hcall;
    pose proof (call_handler_state _ _ _ _ _ Hcall) as Hst1;
    destruct (call_handler_frame _ _ _ _ _ Hcall) as [_ [_ [body [Htrace _]]]];
    cbn [set_trace trace] in Htrace;
    intros H; inversion H; subst st' res; clear H.
  - split.
    + rewrite Hst1. now destruct st.
    + exists ([Invoke argName values] ++ body ++ [Fulfilled argName]).
      cbn [set_trace trace]. rewrite Htrace, <- !app_assoc. reflexivity.
  - split.
    + rewrite Hst1 at 1. now destruct st.
    + exists ([Invoke argName values] ++ body).
      rewrite Htrace, <- app_assoc. reflexivity.
  - split.
    + rewrite Hst1 at 1. now destruct st.
    + exists ([Invoke argName values] ++ body).
      rewrite Htrace, <- app_assoc. reflexivity.
Qed.

Lemma state_frame_trans (st st1 st' : State) :
  st1 = set_host (host st1) (set_trace (trace st1) st) ->
  st' = set_host (host st') (set_trace (trace st') st1) ->
  st' = set_host (host st') (set_trace (trace st') st).
Proof.
  destruct st, st1, st'. unfold set_host, set_trace. cbn.
  intros H1 H2. inversion H1; inversion H2; subst. reflexivity.
Qed.

Lemma dispatch_all_state (r : loc) (keys : list string) :
  forall (st st' : State) (res : Outcome unit),
    forEach keys (dispatch r) st = (res, st') ->
    st' = set_host (host st') (set_trace (trace st') st)
    /\ exists tr, trace st' = trace st ++ tr.
Proof.
  induction keys as [|k keys IH]; intros st st' res.
  - intros H. inversion H; subst. split; [now destruct st'|].
    exists []. now rewrite app_nil_r.
  - cbn [forEach]. unfold bind at 1.
    destruct (dispatch r k st) as [[[]|e|c] st1] eqn:Hturn;
      destruct (dispatch_state _ _ _ _ _ Hturn) as [Hst1 [tr1 Htr1]].
    + intros Hrest. destruct (IH _ _ _ Hrest) as [Hst' [tr Htr]]. split.
      * now apply state_frame_trans with (st1 := st1).
      * exists (tr1 ++ tr). now rewrite Htr, Htr1, <- app_assoc.
    + intros H. inversion H; subst. split; [assumption | now exists tr1].
    + intros H. inversion H; subst. split; [assumption | now exists tr1].
Qed.

(** Whatever its outcome, [run] ends in the state in which dispatch
    started, but for the trace, which has grown, and the host. *)
Lemma run_state (runParams : option RunParams) (st : State) :
  exists tr : list Event,
    snd (run runParams st)
    = set_host (host (snd (run runParams st)))
               (set_trace (trace st ++ tr) (started runParams st)).
Proof.
  rewrite run_unfold.
  destruct (unrecognized _ _) as [|argName rest].
  - destruct (obj_keys (processed st)) as [|k keys].
    + eexists. cbn [snd]. reflexivity.
    + destruct (forEach (k :: keys) (dispatch (length (heap st)))
                        (started runParams st)) as [res st'] eqn:Hloop.
      destruct (dispatch_all_state _ _ _ _ _ Hloop) as [Hst' [tr Htr]].
      exists tr. cbn [snd]. rewrite Hst' at 1.
      change (trace (started runParams st)) with (trace st) in Htr.
      now rewrite Htr.
  - eexists. cbn [snd]. reflexivity.
Qed.


Lemma merge_fold_get (supplied : Obj FlagDef) (keys : list string) :
  forall (registry : Obj FlagDef) (k : string),
    obj_get k
      (fold_left (fun reg argName =>
                    match obj_get argName supplied with
                    | Some def => obj_set argName def reg
                    | None => reg
                    end) keys registry)
    = if includes keys k then
        match obj_get k supplied with
        | Some def => Some def
        | None => obj_get k registry
        end
      else obj_get k registry.
Proof.
  induction keys as [|a keys IH]; intros registry k; [reflexivity|].
  cbn [fold_left]. rewrite IH. unfold includes. cbn [existsb].
  fold (includes keys k).
  destruct (String.eqb_spec k a) as [->|Hne]; cbn [orb].
  - destruct (obj_get a supplied) as [def|] eqn:Ha;
      [rewrite obj_get_set_eq|]; now destruct (includes keys a).
  - assert (obj_get k (match obj_get a supplied with
                       | Some def => obj_set a def registry
                       | None => registry
                       end) = obj_get k registry) as ->.
    { destruct (obj_get a supplied); [|reflexivity].
      apply obj_get_set_ne. congruence. }
    reflexivity.
Qed.

(** A lookup in the merged registry: the caller's definition when the
    caller has one for the key, the earlier definition otherwise. *)
Lemma merged_get (supplied registry : Obj FlagDef) (k : string) :
  obj_get k (merged supplied registry)
  = match obj_get k supplied with
    | Some def => Some def
    | None => obj_get k registry
    end.
Proof.
  unfold merged. rewrite merge_fold_get.
  destruct (includes (obj_keys supplied) k) eqn:Hin; [reflexivity|].
  assert (obj_get k supplied = None) as ->; [|reflexivity].
  apply obj_get_None. intros H. apply includes_In in H. congruence.
Qed.

(** X3: whatever its outcome, [run] sets the tool name to the configured
    name (to "my-cli" when none is configured, also when an earlier call
    had set another name), leaves in the registry the merge of the
    caller's entries into the registry it found, allocates exactly one
    object, the parsed arguments without the reserved bucket, and leaves
    [process.argv] and the column count alone; the trace only grows. *)
Theorem run_state_effects (runParams : option RunParams) (st : State) :
  cliToolName (snd (run runParams st)) = toolName_of runParams
  /\ supportedArguments (snd (run runParams st))
     = merged (supplied_of runParams) (supportedArguments st)
  /\ heap (snd (run runParams st)) = heap st ++ [processed st]
  /\ argv (snd (run runParams st)) = argv st
  /\ columns (snd (run runParams st)) = columns st
  /\ exists tr : list Event, trace (snd (run runParams st)) = trace st ++ tr.
Proof.
  destruct (run_state runParams st) as [tr Hstate].
  repeat split; try (rewrite Hstate; reflexivity).
  exists tr. rewrite Hstate. reflexivity.
Qed.

(** X4: after [run], whatever its outcome, a key of the registry maps to
    the caller's definition when the caller supplied one for that key and
    to its earlier definition otherwise: the caller's entries win over the
    built-in ones, every other entry is kept, and no key is ever removed. *)
Theorem run_registry_lookup (runParams : option RunParams) (st : State) :
  (forall k : string,
      obj_get k (supportedArguments (snd (run runParams st)))
      = match obj_get k (supplied_of runParams) with
        | Some def => Some def
        | None => obj_get k (supportedArguments st)
        end)
  /\ (forall k : string,
         In k (obj_keys (supportedArguments st)) ->
         In k (obj_keys (supportedArguments (snd (run runParams st)))))
  /\ (forall k : string,
         In k (obj_keys (supplied_of runParams)) ->
         In k (obj_keys (supportedArguments (snd (run runParams st))))).
Proof.
  destruct (run_state runParams st) as [tr Hstate].
  assert (supportedArguments (snd (run runParams st))
          = merged (supplied_of runParams) (supportedArguments st)) as ->
    by (rewrite Hstate; reflexivity).
  split; [intros k; apply merged_get|].
  split; intros k Hin;
    destruct (in_dec string_dec k
                (obj_keys (merged (supplied_of runParams) (supportedArguments st))))
      as [Hyes|Hno]; try assumption; exfalso;
    apply obj_get_None in Hno; rewrite merged_get in Hno.
  - destruct (obj_get k (supplied_of runParams)); [discriminate|].
    now apply obj_get_None in Hno.
  - destruct (obj_get k (supplied_of runParams)) eqn:Hk; [discriminate|].
    now apply obj_get_None in Hk.
Qed.

(** X5: validation comes before any dispatch.  When some flag of the
    input is not a key of the merged registry, [run] prints the error
    banner with the configured tool name and raises "Invalid argument"
    for the first such flag in the order of first occurrence on the
    command line; no handler is invoked, also not those of registered
    flags that come earlier. *)
Theorem run_rejects_unregistered_flag
        (runParams : option RunParams) (st : State)
        (before after : list string) (argName : string) :
  uniq (List.filter isFlag (argv st)) = before ++ argName :: after ->
  Forall (fun k => In k (obj_keys (merged (supplied_of runParams)
                                          (supportedArguments st)))) before ->
  ~ In argName (obj_keys (merged (supplied_of runParams)
                                 (supportedArguments st))) ->
  run runParams st
  = (Thrown (JsErr "Error" ("Invalid argument: " +:+ argName)),
     set_trace (trace st ++ [error_banner (toolName_of runParams)])
               (started runParams st))
  /\ invocations (trace (snd (run runParams st))) = invocations (trace st).
Proof.
  intros Hkeys Hbefore Hnot.
  assert (run runParams st
          = (Thrown (JsErr "Error" ("Invalid argument: " +:+ argName)),
             set_trace (trace st ++ [error_banner (toolName_of runParams)])
                       (started runParams st))) as Hrun.
  { rewrite run_unfold, processed_keys, Hkeys.
    change (supportedArguments (started runParams st))
      with (merged (supplied_of runParams) (supportedArguments st)).
    rewrite unrecognized_first by assumption. reflexivity. }
  split; [exact Hrun|]. rewrite Hrun. cbn [snd set_trace trace].
  clear. induction (trace st) as [|ev tr IH]; [reflexivity|].
  destruct ev; simpl; now rewrite ?IH.
Qed.


(** *** The invocations of a run *)

Lemma invocations_app (tr1 tr2 : list Event) :
  invocations (tr1 ++ tr2) = invocations tr1 ++ invocations tr2.
Proof.
  induction tr1 as [|ev tr1 IH]; [reflexivity|].
  destruct ev; simpl; now rewrite IH.
Qed.

Lemma invocations_console (body : list Event) :
  Forall is_console body -> invocations body = [].
Proof.
  induction 1 as [|ev body Hev _ IH]; [reflexivity|].
  destruct ev; simpl in *; [assumption | contradiction | contradiction].
Qed.

Lemma SequentialTrace_invocations (entries : Obj (list string))
      (tr : list Event) (res : Outcome unit) :
  SequentialTrace entries tr res ->
  exists rest : Obj (list string),
    entries = invocations tr ++ rest
    /\ (res = Returned tt -> rest = [])
    /\ (entries <> [] -> invocations tr <> []).
Proof.
  induction 1 as [|k vs entries body tr res Hbody _ IH
                  |k vs entries body res Hbody Hres].
  - exists []. repeat split. intros H. now contradiction H.
  - destruct IH as [rest [Heq [Hall _]]]. exists rest.
    cbn [invocations]. rewrite invocations_app, (invocations_console body Hbody).
    cbn [app invocations]. repeat split.
    + now rewrite <- Heq.
    + exact Hall.
    + discriminate.
  - exists entries. cbn [invocations].
    rewrite (invocations_console body Hbody). repeat split.
    + intros H. contradiction.
    + discriminate.
Qed.

(** [run] of [src/parser.js] when every flag is registered and there is
    at least one: the dispatch loop and the shape of its trace. *)
Lemma run_dispatch_trace (runParams : option RunParams) (st : State) :
  unrecognized (supportedArguments (started runParams st))
               (obj_keys (processed st)) = [] ->
  obj_keys (processed st) <> [] ->
  exists (res : Outcome unit) (st' : State) (tr : list Event),
    run runParams st = (res, st')
    /\ trace st' = trace st ++ tr
    /\ SequentialTrace (processed st) tr res.
Proof.
  intros Hall Hsome.
  destruct (dispatch_loop (length (heap st)) (processed st)
              (supportedArguments (started runParams st)) (processed st)
              (started runParams st))
    as [res [st' [tr [Hloop [_ [_ [Htr Hseq]]]]]]].
  - unfold started. cbn [set_heap heap]. now apply list_lookup_middle.
  - reflexivity.
  - intros k vs Hin. apply obj_get_In; [apply processed_NoDup | assumption].
  - intros k vs Hin Hnone. apply obj_get_None in Hnone. apply Hnone.
    apply (unrecognized_nil (supportedArguments (started runParams st))
             (obj_keys (processed st))); [assumption|].
    change k with (fst (k, vs)). now apply in_map.
  - exists res, st', tr. repeat split; try assumption.
    rewrite run_unfold, Hall.
    destruct (obj_keys (processed st)) as [|k keys] eqn:Hkeys; [congruence|].
    exact Hloop.
Qed.

(** X6: the handler invocations a call of [run] adds to the trace are an
    initial part of the entries of the processed object, flag and values,
    in their order, so each flag's handler is invoked at most once; when
    [run] returns normally they are all of the entries and there is at
    least one: [run] never returns normally without having invoked a
    handler. *)
Theorem run_invocations (runParams : option RunParams) (st : State) :
  exists (tr : list Event) (rest : Obj (list string)),
    trace (snd (run runParams st)) = trace st ++ tr
    /\ processed st = invocations tr ++ rest
    /\ NoDup (obj_keys (invocations tr))
    /\ (fst (run runParams st) = Returned tt ->
        invocations tr = processed st /\ invocations tr <> []).
Proof.
  assert (forall tr rest, processed st = invocations tr ++ rest ->
                          NoDup (obj_keys (invocations tr))) as Hnodup.
  { intros tr rest Heq. pose proof (processed_NoDup st) as Hnd.
    rewrite Heq, obj_keys_app in Hnd. now apply NoDup_app in Hnd as [Hnd _]. }
  pose proof (run_unfold runParams st) as Hunfold.
  destruct (unrecognized (supportedArguments (started runParams st))
                         (obj_keys (processed st))) as [|argName others] eqn:Hun.
  - destruct (obj_keys (processed st)) as [|k keys] eqn:Hkeys.
    + exists [no_flags_hint (cliToolName (started runParams st))], (processed st).
      rewrite Hunfold. cbn [fst snd set_trace trace].
      repeat split; [constructor | discriminate | discriminate].
    + destruct (run_dispatch_trace runParams st)
        as [res [st' [tr [Hrun [Htr Hseq]]]]];
        [now rewrite Hkeys | congruence |].
      destruct (SequentialTrace_invocations _ _ _ Hseq) as [rest [Heq [Hall Hsome]]].
      exists tr, rest. rewrite Hrun. cbn [fst snd].
      split; [exact Htr|]. split; [exact Heq|].
      split; [now apply (Hnodup tr rest)|].
      intros Hres. split.
      * rewrite Heq, (Hall Hres). now rewrite app_nil_r.
      * apply Hsome. intros Hnil. rewrite Hnil in Hkeys. discriminate.
  - exists [error_banner (cliToolName (started runParams st))], (processed st).
    rewrite Hunfold. cbn [fst snd set_trace trace].
    repeat split; [constructor | discriminate | discriminate].
Qed.


(** *** The built-in help through [run] *)


(** *** [processParsedArguments] again *)

(** X8: validation can be repeated.  A second call of
    [processParsedArguments] on the reference a first call was given has
    the outcome of the first and leaves the store as the first left it;
    after a successful first call the second changes nothing at all. *)
Theorem processParsedArguments_idempotent
        (r : loc) (o : Obj (list string)) (st : State) :
  heap st !! r = Some o ->
  fst (processParsedArguments (Some r)
         (snd (processParsedArguments (Some r) st)))
  = fst (processParsedArguments (Some r) st)
  /\ heap (snd (processParsedArguments (Some r)
                  (snd (processParsedArguments (Some r) st))))
     = heap (snd (processParsedArguments (Some r) st))
  /\ (forall st1 : State,
         processParsedArguments (Some r) st = (Returned r, st1) ->
         processParsedArguments (Some r) st1 = (Returned r, st1)).
Proof.
  intros Hr.
  pose proof (processParsedArguments_run r o st Hr) as Hfirst.
  cbn zeta in Hfirst.
  set (o' := obj_delete "unknowns" o) in *.
  set (st1 := set_heap (<[r := o']> (heap st)) st) in *.
  assert (heap st1 !! r = Some o') as Hr1
    by now apply heap_after_write with (o := o).
  assert (obj_delete "unknowns" o' = o') as Hsame
    by apply obj_delete_absent, obj_get_delete_eq.
  assert (forall st2 : State,
             heap st2 = heap st1 ->
             supportedArguments st2 = supportedArguments st ->
             processParsedArguments (Some r) st2
             = match unrecognized (supportedArguments st) (obj_keys o') with
               | [] => (Returned r, st2)
               | argName :: _ =>
                   (Thrown (invalid_argument argName),
                    set_trace (trace st2 ++ [error_banner (cliToolName st2)]) st2)
               end) as Hagain.
  { intros st2 Hheap Hreg.
    assert (heap st2 !! r = Some o') as Hr2 by now rewrite Hheap.
    rewrite (processParsedArguments_run r o' st2 Hr2). cbn zeta.
    rewrite Hsame, Hreg, (list_insert_id _ _ _ Hr2), set_heap_same.
    reflexivity. }
  destruct (unrecognized (supportedArguments st) (obj_keys o'))
    as [|argName rest] eqn:Hun; rewrite Hfirst; cbn [fst snd].
  - pose proof (Hagain st1 eq_refl eq_refl) as Hsecond.
    split; [now rewrite Hsecond|]. split; [now rewrite Hsecond|].
    intros st2 H. inversion H; subst st2. exact Hsecond.
  - pose proof (Hagain (set_trace (trace st ++ [error_banner (cliToolName st)]) st1)
                  eq_refl eq_refl) as Hsecond.
    split; [now rewrite Hsecond|]. split; [now rewrite Hsecond|].
    intros st2 H. discriminate H.
Qed.

(** X9: called without an argument, [processParsedArguments] validates a
    fresh empty object: whatever the registry holds, it raises nothing,
    prints nothing, and returns a reference to a new object without
    keys. *)
Theorem processParsedArguments_without_argument (st : State) :
  processParsedArguments None st
  = (Returned (length (heap st)), set_heap (heap st ++ [[]]) st).
Proof.
  change (processParsedArguments None st)
    with (processParsedArguments (Some (length (heap st)))
            (set_heap (heap st ++ [[]]) st)).
  rewrite (processParsedArguments_run (length (heap st)) []).
  - cbn. unfold set_heap. cbn. do 2 f_equal.
    rewrite <- (Nat.add_0_r (length (heap st))) at 1.
    now rewrite insert_app_r.
  - cbn [set_heap heap]. now apply list_lookup_middle.
Qed.


(** *** The console presenter again *)

Lemma contribution_not_recognized (format : string) :
  recognized format = false -> contribution format = "".
Proof.
  intros Hnot. destruct (contribution_unrecognized format) as [Hin|Hnone];
    [|assumption].
  apply includes_In in Hin. unfold recognized in Hnot. congruence.
Qed.

Lemma str_concat_recognized (formats : list string) :
  str_concat (map contribution (List.filter recognized formats))
  = str_concat (map contribution formats).
Proof.
  induction formats as [|format formats IH]; [reflexivity|].
  cbn [List.filter]. destruct (recognized format) eqn:Hrec.
  - cbn [map str_concat fold_right]. unfold str_concat in IH. now rewrite IH.
  - cbn [map str_concat fold_right].
    rewrite (contribution_not_recognized format Hrec). exact IH.
Qed.

(** X10: names that are not among the twelve semantic format names can be
    removed from the sequence without changing the result of
    [getCommandLineFormat] (they are ignored wherever they stand); the
    result for a concatenated sequence is the result for its first part
    followed by the codes of the second; and every result begins with the
    reset code. *)
Theorem getCommandLineFormat_ignores_unknown_names :
  (forall formats : list string,
      getCommandLineFormat (List.filter recognized formats)
      = getCommandLineFormat formats)
  /\ (forall formats more : list string,
         getCommandLineFormat (formats ++ more)
         = getCommandLineFormat formats +:+ str_concat (map contribution more))
  /\ (forall formats : list string,
         exists codes : string,
           getCommandLineFormat formats = commandLineColors.reset +:+ codes).
Proof.
  split; [|split].
  - intros formats. unfold getCommandLineFormat.
    now rewrite !fold_format_switch, str_concat_recognized.
  - intros formats more. unfold getCommandLineFormat.
    rewrite fold_left_app. apply fold_format_switch.
  - intros formats. eexists. apply fold_format_switch.
Qed.

(** X11: for a format type other than "heading", [printFormattedMessage]
    returns after these console calls, all under the style resolved from
    the type and the colour: for "subHeading" the message, then the
    separator line; for "terminal" the message between ": " and " "; for
    any other type, "default" and unknown names alike, the message alone,
    unchanged.  An argument left out counts as the empty message, the
    type "default" and the colour "dark". *)
Theorem printFormattedMessage_other_types
        (message messageType messageColor : option string)
        (logArgs : list string) (st : State) :
  let text := default "" message in
  let type := default commandLineFormats.default messageType in
  let style :=
    getCommandLineFormat [type; default commandLineFormats.dark messageColor] in
  let lineText := str_repeat "-" (default 0 (columns st)) in
  (type = commandLineFormats.subHeading ->
   printFormattedMessage message messageType messageColor logArgs st
   = (Returned tt,
      set_trace (trace st ++ [styled style text logArgs;
                              styled style lineText logArgs]) st))
  /\ (type = commandLineFormats.terminal ->
      printFormattedMessage message messageType messageColor logArgs st
      = (Returned tt,
         set_trace (trace st ++ [styled style (": " +:+ text +:+ " ") logArgs])
                   st))
  /\ (type <> commandLineFormats.heading ->
      type <> commandLineFormats.subHeading ->
      type <> commandLineFormats.terminal ->
      printFormattedMessage message messageType messageColor logArgs st
      = (Returned tt, set_trace (trace st ++ [styled style text logArgs]) st)).
Proof.
  intros text type style lineText.
  assert (printFormattedMessage message messageType messageColor logArgs st
          = (if String.eqb type commandLineFormats.heading then
               outputFormattedLog lineText style logArgs ;;;
               outputFormattedLog (toUpperCase text) style logArgs ;;;
               outputFormattedLog lineText style logArgs
             else if String.eqb type commandLineFormats.subHeading then
               outputFormattedLog text style logArgs ;;;
               outputFormattedLog lineText style logArgs
             else if String.eqb type commandLineFormats.default then
               outputFormattedLog text style logArgs
             else if String.eqb type commandLineFormats.terminal then
               outputFormattedLog (": " +:+ text +:+ " ") style logArgs
             else outputFormattedLog text style logArgs) st) as Hbody
    by reflexivity.
  rewrite Hbody. clear Hbody. split; [|split].
  - intros ->. change (String.eqb commandLineFormats.subHeading
                                  commandLineFormats.heading) with false.
    change (String.eqb commandLineFormats.subHeading
                       commandLineFormats.subHeading) with true.
    cbn iota.
    erewrite bind_returned by apply outputFormattedLog_run.
    rewrite outputFormattedLog_run. unfold set_trace, styled. cbn.
    now rewrite <- app_assoc.
  - intros ->. reflexivity.
  - intros Hh Hs Ht.
    apply String.eqb_neq in Hh, Hs, Ht. rewrite Hh, Hs, Ht.
    now destruct (String.eqb type commandLineFormats.default).
Qed.


(** X12: each of the four plain wrappers makes exactly one console call
    and returns: the message unchanged, under the reset code twice (once
    from the fold, once for the type "default") and the foreground colour
    of the wrapper, red for errors, yellow for warnings, magenta for
    information, green for success.  Only [printErrorMessage] passes
    further arguments on. *)
Theorem plain_wrappers_print_one_line
        (message : option string) (logArgs : list string) (st : State) :
  let plain colour args :=
    (Returned tt,
     set_trace
       (trace st
        ++ [styled (commandLineColors.reset +:+ commandLineColors.reset
                    +:+ colour)
                   (default "" message) args]) st) in
  printErrorMessage message logArgs st
  = plain commandLineColors.foregroundRed logArgs
  /\ printWarningMessage message st
     = plain commandLineColors.foregroundYellow []
  /\ printInfoMessage message st
     = plain commandLineColors.foregroundMagenta []
  /\ printSuccessMessage message st
     = plain commandLineColors.foregroundGreen [].
Proof. repeat split. Qed.

(** X13: the three other wrappers.  [printHeadingMessage] prints the
    separator line, the message in upper case and the separator line
    again, in bright blue; [printSubHeadingMessage] prints the message and
    then the separator line, in dim cyan; [printTerminalMessage] prints
    the message between ": " and " " under the white-on-black pair, which
    the style holds twice, once for the type and once for the colour
    "terminal".  The separator has the width of the terminal, 0 without
    one. *)
Theorem heading_wrappers_print
        (message : option string) (st : State) :
  let text := default "" message in
  let lineText := str_repeat "-" (default 0 (columns st)) in
  let heading :=
    commandLineColors.reset +:+ commandLineColors.bright
    +:+ commandLineColors.foregroundBlue in
  let subHeading :=
    commandLineColors.reset +:+ commandLineColors.dim
    +:+ commandLineColors.foregroundCyan in
  let terminal :=
    commandLineColors.reset
    +:+ commandLineColors.foregroundWhite +:+ commandLineColors.backgroundBlack
    +:+ commandLineColors.foregroundWhite +:+ commandLineColors.backgroundBlack in
  printHeadingMessage message st
  = (Returned tt,
     set_trace (trace st ++ [styled heading lineText [];
                             styled heading (toUpperCase text) [];
                             styled heading lineText []]) st)
  /\ printSubHeadingMessage message st
     = (Returned tt,
        set_trace (trace st ++ [styled subHeading text [];
                                styled subHeading lineText []]) st)
  /\ printTerminalMessage message st
     = (Returned tt,
        set_trace (trace st ++ [styled terminal (": " +:+ text +:+ " ") []]) st).
Proof.
  intros text lineText heading subHeading terminal. split; [|split].
  - unfold printHeadingMessage, printFormattedMessage. cbn [from_option id].
    erewrite bind_returned by reflexivity.
    change (String.eqb commandLineFormats.heading commandLineFormats.heading)
      with true. cbn iota.
    erewrite bind_returned by apply outputFormattedLog_run.
    erewrite bind_returned by apply outputFormattedLog_run.
    rewrite outputFormattedLog_run. unfold set_trace, styled. cbn.
    rewrite <- !app_assoc. reflexivity.
  - unfold printSubHeadingMessage, printFormattedMessage. cbn [from_option id].
    erewrite bind_returned by reflexivity.
    change (String.eqb commandLineFormats.subHeading commandLineFormats.heading)
      with false.
    change (String.eqb commandLineFormats.subHeading
                       commandLineFormats.subHeading) with true.
    cbn iota.
    erewrite bind_returned by apply outputFormattedLog_run.
    rewrite outputFormattedLog_run. unfold set_trace, styled. cbn.
    rewrite <- !app_assoc. reflexivity.
  - reflexivity.
Qed.


(** *** The version scrape *)

(** The text after the tool name, when the tool name first occurs after
    [pre] and one more code unit follows it. *)
Lemma remainingString_found (pre toolName rest : list N) (sep : N) :
  indexOf (pre ++ toolName ++ sep :: rest) toolName = Z.of_nat (length pre) ->
  remainingString_of toolName (pre ++ toolName ++ sep :: rest) = rest.
Proof.
  intros Hindex. unfold remainingString_of, js_substring. rewrite Hindex.
  rewrite !length_app. cbn [length].
  replace (Z.to_nat _) with (length rest) by lia.
  replace (Z.to_nat _) with (length pre + (length toolName + 1)) by lia.
  rewrite skipn_app, skipn_all2, app_nil_l by lia.
  replace (length pre + (length toolName + 1) - length pre)
    with (length toolName + 1) by lia.
  rewrite skipn_app, skipn_all2, app_nil_l by lia.
  replace (length toolName + 1 - length toolName) with 1 by lia.
  cbn [skipn]. apply firstn_all.
Qed.

(** X16: the version callback of [src/parser.js] on a chunk in which the
    tool name first occurs after some text and is followed by one code
    unit (the "@" of [npm list]): it prints the tool name and all the rest
    of the chunk, up to its end, not the version alone. *)
Theorem version_on_data_prints_rest (toolName pre rest : list N) (sep : N) :
  indexOf (pre ++ toolName ++ sep :: rest) toolName = Z.of_nat (length pre) ->
  version_on_data toolName (pre ++ toolName ++ sep :: rest)
  = toolName ++ units " CLI global version: " ++ rest.
Proof.
  intros Hname. unfold version_on_data.
  now rewrite (remainingString_found _ _ _ _ Hname).
Qed.

(** The text taken for the version when the tool name does not occur in
    the chunk: the position computed is the length of the tool name. *)
Lemma remainingString_without_name (toolName data : list N) :
  indexOf data toolName = (-1)%Z ->
  remainingString_of toolName data = skipn (length toolName) data.
Proof.
  intros Hindex. unfold remainingString_of, js_substring. rewrite Hindex.
  destruct (Nat.le_gt_cases (length toolName) (length data)) as [Hle|Hgt].
  - replace (Z.to_nat _) with (length data - length toolName) by lia.
    replace (Z.to_nat _) with (length toolName) by lia.
    apply firstn_all2. rewrite length_skipn. lia.
  - replace (Z.to_nat _) with 0 by lia.
    cbn [firstn]. symmetry. apply skipn_all2. lia.
Qed.

(** X17: when the tool name does not occur in the chunk, the version
    callback of [src/parser.js] does not fail: it prints, as the version,
    the chunk without as many of its first code units as the tool name
    has. *)
Theorem version_on_data_without_name (toolName data : list N) :
  indexOf data toolName = (-1)%Z ->
  version_on_data toolName data
  = toolName ++ units " CLI global version: " ++ skipn (length toolName) data.
Proof.
  intros Hindex. unfold version_on_data.
  now rewrite (remainingString_without_name _ _ Hindex).
Qed.

(** *** The tokens before the first flag *)

Lemma fold_bucket_step_reserved (args : list string) :
  forall (a b : list string) (others : Obj (list string)) (cur : string),
    exists (a' b' : list string) (others' : Obj (list string)) (cur' : string),
      fold_left bucket_step args (("unknowns", a) :: others, cur)
      = (("unknowns", a') :: others', cur')
      /\ fold_left bucket_step args (("unknowns", b) :: others, cur)
         = (("unknowns", b') :: others', cur').
Proof.
  induction args as [|arg rest IH]; intros a b others cur.
  - exists a, b, others, cur. now split.
  - cbn [fold_left]. unfold bucket_step at 2 4.
    destruct (isFlag arg) eqn:Harg.
    + cbn [obj_set]. rewrite String.eqb_sym, (isFlag_not_unknowns arg Harg).
      apply IH.
    + cbn [obj_get obj_set].
      destruct (String.eqb_spec "unknowns" cur) as [<-|Hne].
      * apply IH.
      * destruct (obj_get cur others) as [vs|]; apply IH.
Qed.

Lemma fold_bucket_step_leading (lead : list string) :
  forall vs : list string,
    Forall (fun v => isFlag v = false) lead ->
    fold_left bucket_step lead ([("unknowns", vs)], "unknowns")
    = ([("unknowns", vs ++ lead)], "unknowns").
Proof.
  induction lead as [|arg lead IH]; intros vs Hall.
  - simpl. now rewrite app_nil_r.
  - inversion Hall as [|x l Harg Hrest]; subst.
    cbn [fold_left]. unfold bucket_step at 2. rewrite Harg.
    cbn [obj_get obj_set]. rewrite String.eqb_refl.
    rewrite IH by assumption. now rewrite <- app_assoc.
Qed.

(** The tokens before the first flag only reach the reserved bucket. *)
Lemma processed_without_leading (lead rest : list string) :
  Forall (fun v => isFlag v = false) lead ->
  obj_delete "unknowns" (buckets (lead ++ rest))
  = obj_delete "unknowns" (buckets rest).
Proof.
  intros Hall. unfold buckets.
  rewrite fold_left_app, (fold_bucket_step_leading lead [] Hall).
  destruct (fold_bucket_step_reserved rest ([] ++ lead) [] [] "unknowns")
    as [a' [b' [others' [cur' [-> ->]]]]].
  cbn [fst obj_delete]. now rewrite String.eqb_refl.
Qed.

Lemma call_handler_argv (fn : HandlerFn) (args v : list string) (st : State) :
  call_handler fn args (set_argv v st)
  = (fst (call_handler fn args st), set_argv v (snd (call_handler fn args st))).
Proof.
  rewrite !call_handler_effect. cbn [set_argv host cliToolName supportedArguments].
  now destruct (handler_effect _ _ fn args (host st)) as [[printed result] h'].
Qed.

Lemma dispatch_argv (r : loc) (argName : string) (v : list string) (st : State) :
  dispatch r argName (set_argv v st)
  = (fst (dispatch r argName st), set_argv v (snd (dispatch r argName st))).
Proof.
  rewrite !dispatch_cases. cbn [set_argv supportedArguments heap].
  destruct (obj_get argName (supportedArguments st)) as [def|]; [|reflexivity].
  destruct (heap st !! r) as [o|]; [|reflexivity].
  destruct (obj_get argName o) as [values|]; [|reflexivity].
  change (set_trace (trace (set_argv v st) ++ [Invoke argName values])
                    (set_argv v st))
    with (set_argv v (set_trace (trace st ++ [Invoke argName values]) st)).
  change (mkState (cliToolName st) (supportedArguments st) (heap st) v
                  (columns st) (trace st) (host st))
    with (set_argv v st).
  rewrite call_handler_argv.
  now destruct (call_handler (f def) values
                  (set_trace (trace st ++ [Invoke argName values]) st))
    as [[[]|e|c] st1].
Qed.

Lemma dispatch_all_argv (r : loc) (v : list string) (keys : list string) :
  forall st : State,
    forEach keys (dispatch r) (set_argv v st)
    = (fst (forEach keys (dispatch r) st),
       set_argv v (snd (forEach keys (dispatch r) st))).
Proof.
  induction keys as [|k keys IH]; intros st; [reflexivity|].
  cbn [forEach].
  pose proof (dispatch_argv r k v st) as Hturn'.
  destruct (dispatch r k st) as [[[]|e|c] st1] eqn:Hturn; cbn [fst snd] in Hturn'.
  - rewrite (bind_returned _ _ _ _ _ Hturn'), (bind_returned _ _ _ _ _ Hturn).
    apply IH.
  - now rewrite (bind_thrown _ _ _ _ _ Hturn'), (bind_thrown _ _ _ _ _ Hturn).
  - now rewrite (bind_exited _ _ _ _ _ Hturn'), (bind_exited _ _ _ _ _ Hturn).
Qed.


(** X18: the tokens before the first flag token (the path of the
    executable and of the script, by convention) have no influence on
    [run]: on an input from which they are removed, [run] has the same
    outcome and ends in the same state, [process.argv] apart. *)
Theorem run_ignores_leading_tokens
        (runParams : option RunParams) (st : State) (lead rest : list string) :
  argv st = lead ++ rest ->
  Forall (fun v => isFlag v = false) lead ->
  run runParams (set_argv rest st)
  = (fst (run runParams st), set_argv rest (snd (run runParams st))).
Proof.
  intros Hargv Hlead.
  assert (processed (set_argv rest st) = processed st) as Hprocessed.
  { unfold processed. cbn [set_argv argv]. rewrite Hargv. symmetry.
    now apply processed_without_leading. }
  assert (started runParams (set_argv rest st)
          = set_argv rest (started runParams st)) as Hstarted.
  { unfold started. rewrite Hprocessed. reflexivity. }
  rewrite !run_unfold, Hprocessed, Hstarted.
  change (supportedArguments (set_argv rest (started runParams st)))
    with (supportedArguments (started runParams st)).
  change (heap (set_argv rest st)) with (heap st).
  destruct (unrecognized _ _) as [|argName others]; [|reflexivity].
  destruct (obj_keys (processed st)) as [|k keys]; [reflexivity|].
  apply dispatch_all_argv.
Qed.

End Program.

(** ** Instances *)

(** The scenarios of the specification, evaluated. *)

Example run_help_only :
  run (fun _ => announce "v") None
      (initial_state tt ["node"; "script.js"; "-h"] None)
  = (Returned tt,
     mkState "my-cli" builtinArguments [[("-h", [])]]
             ["node"; "script.js"; "-h"] None
             [ Invoke "-h" [];
               Console (ConsoleLog "my-cli CLI usage below: " []);
               Console
                 (ConsoleTable
                    [ ("help",
                       mkUsageRow ["-h"; "--help"] []
                         "Prints the currently supported usage of the CLI");
                      ("version",
                       mkUsageRow ["-v"; "--version"] []
                         "Prints the currently installed version of the my-cli CLI") ]);
               Fulfilled "-h" ]
             tt).
Proof. reflexivity. Qed.

Example run_unregistered_flag :
  fst (run (fun _ => announce "v") None
           (initial_state tt ["node"; "script.js"; "-x"; "foo"; "bar"] None))
  = Thrown (JsErr "Error" "Invalid argument: -x").
Proof. reflexivity. Qed.

Example heading_on_five_columns :
  trace (snd (printHeadingMessage ascii_toUpperCase (Some "hello")
                (initial_state tt [] (Some 5))))
  = [ Console (ConsoleLog (getCommandLineFormat ["heading"; "primary"]
                           +:+ "%s" +:+ commandLineColors.reset) ["-----"]);
      Console (ConsoleLog (getCommandLineFormat ["heading"; "primary"]
                           +:+ "%s" +:+ commandLineColors.reset) ["HELLO"]);
      Console (ConsoleLog (getCommandLineFormat ["heading"; "primary"]
                           +:+ "%s" +:+ commandLineColors.reset) ["-----"]) ].
Proof. reflexivity. Qed.

Example executeCommand_on_failure :
  fst (executeCommand
         (fun _ h => (ExecRejected (JsErr "Error" "Command failed: false"), h))
         "false" (initial_state tt [] None))
  = Returned (mkExecResult "" (ErrFailure (JsErr "Error" "Command failed: false"))).
Proof. reflexivity. Qed.

(** Names listed as array indices come first in the table, in ascending
    order, whatever the order of the registry. *)
Example usage_table_lists_indices_first :
  usage_table
    [ ("-b", mkFlagDef "beta" "b" None (@HelpFn unit));
      ("-t", mkFlagDef "10" "ten" None HelpFn);
      ("-n", mkFlagDef "9" "nine" None HelpFn);
      ("-z", mkFlagDef "010" "not an index" None HelpFn) ]
  = inr [ ("9", mkUsageRow ["-n"] [] "nine");
          ("10", mkUsageRow ["-t"] [] "ten");
          ("beta", mkUsageRow ["-b"] [] "b");
          ("010", mkUsageRow ["-z"] [] "not an index") ].
Proof. reflexivity. Qed.

(** Another callback of the process prints between the two segments of
    the async handler of "-a"; the dispatch stays in order, and ends at
    the handler of "-b", which throws. *)
Example other_callback_between_segments :
  exists st' : State,
    steps (fun _ => announce "v") 0
      (Looping ["-a"; "-b"; "-c"],
       started (Some example_params)
         (initial_state tt ["node"; "cli"; "-a"; "x"; "-b"; "-c"] None))
      [ Called "-a" ["x"];
        Other [ConsoleLog "tick" []];
        Ran "-a" [ConsoleLog "%s" ["x"]];
        Resumed "-a";
        Called "-b" [];
        Raised "-b" (Thrown (JsErr "Error" "boom")) ]
      (Ended (Thrown (JsErr "Error" "boom")), st')
    /\ trace st'
       = [ Invoke "-a" ["x"]; Console (ConsoleLog "a" []);
           Console (ConsoleLog "tick" []);
           Console (ConsoleLog "%s" ["x"]); Fulfilled "-a";
           Invoke "-b" [] ].
Proof.
  eexists. split.
  - eapply steps_next; [eapply step_call; reflexivity|].
    eapply steps_next; [apply (step_other _ _ _ _ _ _ _ tt)|].
    eapply steps_next; [apply step_segment|].
    eapply steps_next; [apply step_resume|].
    eapply steps_next; [eapply step_call; reflexivity|].
    eapply steps_next; [apply step_raise; discriminate|].
    apply steps_done.
  - reflexivity.
Qed.

(** A repeated flag: the claim as first stated fails.  The values given
    at the first occurrence of "-x" are in no bucket, and the object
    differs from the one obtained by registering a flag only when it is
    absent. *)
Lemma parseInputArguments_repeated_flag :
  parseInputArguments
    (initial_state tt ["node"; "script.js"; "-x"; "a"; "-x"; "b"] None)
  = (Returned 0,
     set_heap [[("unknowns", ["node"; "script.js"]); ("-x", ["b"])]]
              (initial_state tt ["node"; "script.js"; "-x"; "a"; "-x"; "b"] None))
  /\ spec_buckets ["node"; "script.js"; "-x"; "a"; "-x"; "b"]
     = [("unknowns", ["node"; "script.js"]); ("-x", ["a"; "b"])]
  /\ ~ In "a" (tokens_of [("unknowns", ["node"; "script.js"]); ("-x", ["b"])])
  /\ ~ (forall args : list string, buckets args = spec_buckets args)
  /\ ~ (forall args : list string, tokens_of (buckets args) = args).
Proof.
  split; [reflexivity|]. split; [reflexivity|]. split; [|split].
  - vm_compute. intros H. decompose [or] H; congruence.
  - intros H.
    specialize (H ["node"; "script.js"; "-x"; "a"; "-x"; "b"]).
    vm_compute in H. congruence.
  - intros H.
    specialize (H ["node"; "script.js"; "-x"; "a"; "-x"; "b"]).
    vm_compute in H. congruence.
Qed.

(** The statement about [parseInputArguments] at an input without a
    repeated flag. *)
Lemma parseInputArguments_buckets_witness :
  exists parsedArgs : Obj (list string),
    parseInputArguments
      (initial_state tt ["node"; "script.js"; "-x"; "foo"; "bar"; "-h"] None)
    = (Returned 0,
       set_heap [parsedArgs]
         (initial_state tt ["node"; "script.js"; "-x"; "foo"; "bar"; "-h"] None))
    /\ obj_get "-x" parsedArgs = Some ["foo"; "bar"]
    /\ tokens_of parsedArgs = ["node"; "script.js"; "-x"; "foo"; "bar"; "-h"].
Proof.
  destruct (parseInputArguments_buckets
              (initial_state tt ["node"; "script.js"; "-x"; "foo"; "bar"; "-h"] None))
    as [parsedArgs [Hrun [_ [_ [Hget Hdistinct]]]]].
  exists parsedArgs. split; [exact Hrun|]. split.
  - rewrite Hget. reflexivity.
  - apply Hdistinct. apply (bool_decide_unpack _). vm_compute. exact I.
Defined.

(** Validation of the object [{"-h": [], "-x": ["foo", "bar"]}] against
    the built-in registry: the error names "-x". *)
Lemma processParsedArguments_validates_witness :
  processParsedArguments (Some 0) (example_store_state tt)
  = (Thrown (JsErr "Error" "Invalid argument: -x"),
     set_trace [error_banner "my-cli"] (example_store_state tt)).
Proof.
  apply (proj1 (proj2 (processParsedArguments_validates
                         0 [("-h", []); ("-x", ["foo"; "bar"])]
                         (example_store_state tt) eq_refl eq_refl))
           ["-h"] [] "-x").
  - reflexivity.
  - constructor; [now left | constructor].
  - intros H. vm_compute in H. decompose [or] H; congruence.
Defined.

(** Processing the object [{unknowns: [...], "-v": []}]: the same
    reference comes back and the object has lost its reserved bucket. *)
Lemma processParsedArguments_returns_its_argument_witness :
  fst (processParsedArguments (Some 1) (example_store_state tt)) = Returned 1
  /\ heap (snd (processParsedArguments (Some 1) (example_store_state tt))) !! 1
     = Some [("-v", [])]
  /\ heap (snd (processParsedArguments (Some 1) (example_store_state tt))) !! 0
     = Some [("-h", []); ("-x", ["foo"; "bar"])].
Proof.
  destruct (processParsedArguments_returns_its_argument
              1 [("unknowns", ["node"; "script.js"]); ("-v", [])]
              (example_store_state tt) eq_refl)
    as (_ & _ & Hobject & Hothers & _ & _ & _ & Hsuccess).
  split; [|split].
  - rewrite Hsuccess; [reflexivity|].
    intros k Hin Hne. vm_compute in Hin.
    destruct Hin as [<-|[<-|[]]]; [now contradiction Hne|].
    vm_compute. tauto.
  - exact Hobject.
  - transitivity (heap (example_store_state tt) !! 0);
      [apply Hothers; discriminate | reflexivity].
Defined.

(** [run] on the input ["node", "script.js"], which has no flag. *)
Lemma run_without_flags_witness :
  run (fun _ => announce "v") None
      (initial_state tt ["node"; "script.js"] None)
  = (Exited 1,
     mkState "my-cli" builtinArguments [[]] ["node"; "script.js"] None
             [no_flags_hint "my-cli"] tt).
Proof.
  exact (proj1 (run_without_flags (fun _ => announce "v") None
                  (initial_state tt ["node"; "script.js"] None) eq_refl)).
Defined.

(** A heading when standard output has no column count (a pipe or a
    file): the two separator lines are empty.  No width greater than 0,
    default or other, is that of the separator printed. *)
Lemma printFormattedMessage_heading_without_columns :
  printFormattedMessage ascii_toUpperCase (Some "done")
    (Some commandLineFormats.heading) (Some commandLineFormats.primary) []
    (initial_state tt [] None)
  = (Returned tt,
     set_trace
       [ styled (getCommandLineFormat ["heading"; "primary"]) "" [];
         styled (getCommandLineFormat ["heading"; "primary"]) "DONE" [];
         styled (getCommandLineFormat ["heading"; "primary"]) "" [] ]
       (initial_state tt [] None))
  /\ ~ (exists width : nat,
           0 < width
           /\ trace (snd (printFormattedMessage ascii_toUpperCase (Some "done")
                            (Some commandLineFormats.heading)
                            (Some commandLineFormats.primary) []
                            (initial_state tt [] None)))
              = [ styled (getCommandLineFormat ["heading"; "primary"])
                         (str_repeat "-" width) [];
                  styled (getCommandLineFormat ["heading"; "primary"]) "DONE" [];
                  styled (getCommandLineFormat ["heading"; "primary"])
                         (str_repeat "-" width) [] ]).
Proof.
  split; [reflexivity|].
  intros [width [Hpos Htrace]].
  destruct width as [|width]; [lia|].
  vm_compute in Htrace. discriminate Htrace.
Qed.

(** [run] on three registered flags: the handler of the first is async
    and is awaited to its end, that of the second throws, that of the
    third is not called. *)
Lemma run_dispatches_in_order_witness :
  run (fun _ => announce "v") (Some example_params)
      (initial_state tt ["node"; "cli"; "-a"; "x"; "-b"; "-c"] None)
  = (Thrown (JsErr "Error" "boom"),
     set_trace
       [ Invoke "-a" ["x"]; Console (ConsoleLog "a" []);
         Console (ConsoleLog "%s" ["x"]); Fulfilled "-a";
         Invoke "-b" [] ]
       (started (Some example_params)
          (initial_state tt ["node"; "cli"; "-a"; "x"; "-b"; "-c"] None)))
  /\ (forall (ls : list Label) (c : Status * State),
         steps (fun _ => announce "v") 0
               (Looping ["-a"; "-b"; "-c"],
                started (Some example_params)
                  (initial_state tt ["node"; "cli"; "-a"; "x"; "-b"; "-c"] None))
               ls c ->
         InOrder [("-a", ["x"]); ("-b", []); ("-c", [])] ls (result_of (fst c))).
Proof.
  destruct (run_dispatches_in_order (fun _ => announce "v") (Some example_params)
              (initial_state tt ["node"; "cli"; "-a"; "x"; "-b"; "-c"] None))
    as [[tr [res [h [Hseq [Hrun _]]]]] [Hsteps _]].
  - discriminate.
  - intros k Hin. vm_compute in Hin. vm_compute.
    decompose [or] Hin; tauto.
  - vm_compute in Hseq. injection Hseq as <- <- <-.
    split; [exact Hrun | exact Hsteps].
Defined.

(** Two flags that share the canonical name "hasOwnProperty": the row of
    the first takes the place of the method, the call for the second
    throws, and nothing is printed.  A definition named "__proto__" gets
    no row.  So it is not for every registry that the table lists each
    flag token in the row of its canonical name. *)
Lemma outputSupportedUsage_shadowed_method :
  outputSupportedUsage
    (mkState "my-cli" shadowing_registry [] [] None [] tt)
  = (Thrown (JsErr "TypeError" "usage.hasOwnProperty is not a function"),
     mkState "my-cli" shadowing_registry [] [] None [] tt)
  /\ usage_table (@proto_registry unit)
     = inr [("help", mkUsageRow ["-h"] []
                       "Prints the currently supported usage of the CLI")]
  /\ ~ (forall st : @State unit,
           exists table : Obj UsageRow,
             usage_table (supportedArguments st) = inr table
             /\ forall (k : string) (def : FlagDef),
                  obj_get k (supportedArguments st) = Some def ->
                  exists row, obj_get (name def) table = Some row
                              /\ In k (Flags row)).
Proof.
  split; [reflexivity|]. split; [reflexivity|].
  intros H.
  destruct (H (mkState "my-cli" shadowing_registry [] [] None [] tt))
    as [table [Htable _]].
  discriminate Htable.
Qed.

(** The usage table of the built-in registry. *)
Lemma outputSupportedUsage_rows_witness :
  outputSupportedUsage (initial_state tt [] None)
  = (Returned tt,
     set_trace
       [ Console (ConsoleLog "my-cli CLI usage below: " []);
         Console
           (ConsoleTable
              [ ("help",
                 mkUsageRow ["-h"; "--help"] []
                   "Prints the currently supported usage of the CLI");
                ("version",
                 mkUsageRow ["-v"; "--version"] []
                   "Prints the currently installed version of the my-cli CLI") ]) ]
       (initial_state tt [] None)).
Proof.
  destruct (outputSupportedUsage_rows (initial_state tt [] None))
    as [table [Htable [Hrun _]]].
  - intros k def.
    apply (obj_get_Forall (fun def => name def <> "__proto__")).
    repeat constructor; discriminate.
  - intros k def _.
    apply (obj_get_Forall (fun def => name def <> "hasOwnProperty")).
    repeat constructor; discriminate.
  - vm_compute in Htable. injection Htable as <-. exact Hrun.
Defined.

(** ** Instances of the further properties *)

(** A chunk as [npm list -g] prints it, with the characters U+2514 and
    U+2500 of the tree before the tool name: one code unit each. *)
Example version_scrape_on_npm_line :
  version_on_data (units "my-cli")
    ([9492; 9472; 9472; 32]%N ++ units "my-cli@1.2.3")
  = units "my-cli CLI global version: 1.2.3".
Proof. reflexivity. Qed.

(** An unregistered flag after a registered one. *)
Lemma run_rejects_unregistered_flag_witness :
  run (fun _ => announce "v") None
      (initial_state tt ["node"; "cli"; "-h"; "-x"; "foo"] None)
  = (Thrown (JsErr "Error" "Invalid argument: -x"),
     mkState "my-cli" builtinArguments [[("-h", []); ("-x", ["foo"])]]
             ["node"; "cli"; "-h"; "-x"; "foo"] None
             [error_banner "my-cli"] tt).
Proof.
  apply (run_rejects_unregistered_flag (fun _ => announce "v") None
           (initial_state tt ["node"; "cli"; "-h"; "-x"; "foo"] None)
           ["-h"] [] "-x").
  - reflexivity.
  - constructor; [now left | constructor].
  - vm_compute. intros H. decompose [or] H; congruence.
Defined.


(** Validating twice the object [{unknowns: [...], "-v": []}]. *)
Lemma processParsedArguments_idempotent_witness :
  fst (processParsedArguments (Some 1)
         (snd (processParsedArguments (Some 1) (example_store_state tt))))
  = Returned 1
  /\ heap (snd (processParsedArguments (Some 1)
                  (snd (processParsedArguments (Some 1) (example_store_state tt)))))
     = [ [("-h", []); ("-x", ["foo"; "bar"])]; [("-v", [])] ].
Proof.
  destruct (processParsedArguments_idempotent
              1 [("unknowns", ["node"; "script.js"]); ("-v", [])]
              (example_store_state tt) eq_refl) as [Hfst [Hheap _]].
  split; [rewrite Hfst | rewrite Hheap]; reflexivity.
Defined.

(** The line of [npm list -g] for an installed tool. *)
Lemma version_on_data_prints_rest_witness :
  version_on_data (units "my-cli")
    ([9492; 9472; 9472; 32]%N ++ units "my-cli" ++ 64%N :: units "1.2.3 extraneous")
  = units "my-cli CLI global version: 1.2.3 extraneous".
Proof.
  exact (version_on_data_prints_rest (units "my-cli") [9492; 9472; 9472; 32]%N
           (units "1.2.3 extraneous") 64%N eq_refl).
Defined.

(** The line of [npm list -g] for a tool that is not installed: the
    version printed is "mpty)". *)
Lemma version_on_data_without_name_witness :
  version_on_data (units "my-cli") ([9492; 9472; 9472; 32]%N ++ units "(empty)")
  = units "my-cli CLI global version: mpty)".
Proof.
  exact (version_on_data_without_name (units "my-cli")
           ([9492; 9472; 9472; 32]%N ++ units "(empty)") eq_refl).
Defined.

(** The two conventional leading tokens removed. *)
Lemma run_ignores_leading_tokens_witness :
  run (fun _ => announce "v") None (initial_state tt ["-h"] None)
  = (Returned tt,
     set_argv ["-h"]
       (snd (run (fun _ => announce "v") None
                 (initial_state tt ["node"; "script.js"; "-h"] None)))).
Proof.
  apply (run_ignores_leading_tokens (fun _ => announce "v") None
           (initial_state tt ["node"; "script.js"; "-h"] None)
           ["node"; "script.js"] ["-h"]).
  - reflexivity.
  - repeat constructor.
Defined.
